(** * Universal Playwright framework: the API client and the test data factory

    A shallow embedding of [src/api/api-client.ts], [src/utils/logger.ts] and
    [fixtures/test-data-factory.ts].  Asynchronous methods are sequential
    computations over an explicit state; everything the TypeScript code obtains
    from its platform (the HTTP transport, the random source, the clock, the
    local time zone, [Array.prototype.sort]) is a parameter of the model. *)

From Stdlib Require Import ZArith Ascii String.
From stdpp Require Import gmap strings list pretty.

Local Open Scope string_scope.
Local Open Scope list_scope.
Local Open Scope Z_scope.
Set Warnings "-register-all".

(** ** The JavaScript fragment the sources rely on *)

Module Js.

(** Exceptions, by constructor name. *)
Inductive Exn : Type :=
| Error (message : string)
| RangeError (message : string).

(** Completion of a call: a value, or a thrown exception. *)
Inductive Result (A : Type) : Type :=
| Ok (a : A)
| Throw (e : Exn).
Arguments Ok {A} a.
Arguments Throw {A} e.

(** A computation over a state [S] that may throw. *)
Definition M (S A : Type) : Type := S → Result A * S.

Definition ret {S A} (a : A) : M S A := λ s, (Ok a, s).

Definition bind {S A B} (m : M S A) (k : A → M S B) : M S B :=
  λ s, match m s with
       | (Ok a, s') => k a s'
       | (Throw e, s') => (Throw e, s')
       end.

Definition throw {S A} (e : Exn) : M S A := λ s, (Throw e, s).

(** [try { m } catch (e) { h e }] *)
Definition try_catch {S A} (m : M S A) (h : Exn → M S A) : M S A :=
  λ s, match m s with
       | (Ok a, s') => (Ok a, s')
       | (Throw e, s') => h e s'
       end.

Definition gets {S A} (f : S → A) : M S A := λ s, (Ok (f s), s).
Definition modify {S} (f : S → S) : M S unit := λ s, (Ok tt, f s).

Declare Scope js_scope.
Delimit Scope js_scope with js.
Notation "'let*' x := m 'in' k" := (bind m (λ x, k))
  (at level 10, x name, m at level 100, k at level 200) : js_scope.

(** Values that travel as request bodies and decoded response bodies. *)
Inductive JsValue : Type :=
| JsNull
| JsBool (b : bool)
| JsNumber (n : Z)
| JsString (s : string)
| JsArray (items : list JsValue)
| JsObject (fields : list (string * JsValue)).

(** ToBoolean, as used by [if (data)]. *)
Definition truthy (v : JsValue) : bool :=
  match v with
  | JsNull => false
  | JsBool b => b
  | JsNumber n => negb (n =? 0)
  | JsString s => negb (String.eqb s EmptyString)
  | JsArray _ | JsObject _ => true
  end.

Definition between (lo hi : nat) (c : ascii) : bool :=
  let n := nat_of_ascii c in (lo <=? n)%nat && (n <=? hi)%nat.

Definition is_upper (c : ascii) : bool := between 65 90 c.
Definition is_lower (c : ascii) : bool := between 97 122 c.
Definition is_digit (c : ascii) : bool := between 48 57 c.

Definition upper_ascii (c : ascii) : ascii :=
  if is_lower c then ascii_of_nat (nat_of_ascii c - 32) else c.
Definition lower_ascii (c : ascii) : ascii :=
  if is_upper c then ascii_of_nat (nat_of_ascii c + 32) else c.

Fixpoint map_string (f : ascii → ascii) (s : string) : string :=
  match s with
  | EmptyString => EmptyString
  | String c r => String (f c) (map_string f r)
  end.

(** [String.prototype.toUpperCase] / [toLowerCase] on ASCII text. *)
Definition toUpperCase : string → string := map_string upper_ascii.
Definition toLowerCase : string → string := map_string lower_ascii.

(** [s.includes(needle)] *)
Fixpoint includes (needle s : string) : bool :=
  String.prefix needle s
  || match s with
     | EmptyString => false
     | String _ r => includes needle r
     end.

(** [s.split(sep)[0]] for a one-character separator. *)
Fixpoint before_first (sep : ascii) (s : string) : string :=
  match s with
  | EmptyString => EmptyString
  | String c r => if Ascii.eqb c sep then EmptyString else String c (before_first sep r)
  end.

Definition hex_digit (n : nat) : ascii :=
  ascii_of_nat (if (n <? 10)%nat then 48 + n else 55 + n).

(** One byte of the application/x-www-form-urlencoded serializer. *)
Definition form_encode_byte (c : ascii) : string :=
  if is_upper c || is_lower c || is_digit c
     || Ascii.eqb c "*" || Ascii.eqb c "-" || Ascii.eqb c "." || Ascii.eqb c "_"
  then String c EmptyString
  else if Ascii.eqb c " " then "+"
  else let n := nat_of_ascii c in
       String "%" (String (hex_digit (n / 16)) (String (hex_digit (n mod 16)) EmptyString)).

Fixpoint form_encode (s : string) : string :=
  match s with
  | EmptyString => EmptyString
  | String c r => form_encode_byte c +:+ form_encode r
  end.

(** [new URLSearchParams(params).toString()], [params] listed in the
    enumeration order of the object's keys. *)
Definition searchParams_toString (params : list (string * string)) : string :=
  String.concat "&" (map (λ kv, form_encode kv.1 +:+ "=" +:+ form_encode kv.2) params).

End Js.

Import Js.
Local Open Scope js_scope.

(** ** [src/utils/logger.ts] *)

Module Logger.

Inductive LogLevel : Type := DEBUG | INFO | WARN | ERROR.

Definition level_value (l : LogLevel) : Z :=
  match l with DEBUG => 0 | INFO => 1 | WARN => 2 | ERROR => 3 end.

(** [logLevel] is [Some n] for a numeric threshold.  A TypeScript numeric enum
    also maps "0".."3" back to the member names; such a threshold is a string,
    every comparison against it is false, and it is [None] here. *)
Record t : Type := { className : string; logLevel : option Z }.

Definition getLogLevelFromEnv (LOG_LEVEL : option string) : option Z :=
  let level := match LOG_LEVEL with
               | Some v => if String.eqb (toUpperCase v) EmptyString then "INFO" else toUpperCase v
               | None => "INFO"
               end in
  if String.eqb level "DEBUG" then Some 0
  else if String.eqb level "INFO" then Some 1
  else if String.eqb level "WARN" then Some 2
  else if String.eqb level "ERROR" then Some 3
  else if String.eqb level "0" || String.eqb level "1"
          || String.eqb level "2" || String.eqb level "3" then None
  else Some (level_value INFO).

Definition new (LOG_LEVEL : option string) (name : string) : t :=
  {| className := name; logLevel := getLogLevelFromEnv LOG_LEVEL |}.

Definition shouldLog (lg : t) (level : LogLevel) : bool :=
  match logLevel lg with
  | Some threshold => threshold <=? level_value level
  | None => false
  end.

End Logger.

(** ** [src/api/api-client.ts] *)

Module ApiClient.

Inductive Verb : Type := GET | POST | PUT | PATCH | DELETE.

(** [interface RequestOptions]: every member is optional ([None] is
    [undefined]); [params] keeps the enumeration order of its keys. *)
Record RequestOptions : Type := {
  headers : option (gmap string string);
  data : option JsValue;
  params : option (list (string * string));
  timeout : option Z
}.

(** [{}] *)
Definition no_options : RequestOptions :=
  {| headers := None; data := None; params := None; timeout := None |}.

(** [{ ...options, data }] *)
Definition with_data (options : RequestOptions) (d : option JsValue) : RequestOptions :=
  {| headers := headers options; data := d;
     params := params options; timeout := timeout options |}.

Inductive FormValue : Type :=
| FileStream (filePath : string)
| FormField (v : JsValue).

(** The options object handed to the request context. *)
Inductive FetchOptions : Type :=
| Fetch (hdrs : gmap string string) (tmo : Z) (body : option JsValue)
| Multipart (form : gmap string FormValue).

Record Request : Type := {
  req_verb : Verb;
  req_url : string;
  req_options : FetchOptions
}.

(** What the transport hands back: status, lower-cased header mapping and the
    two body readers, each of which may throw. *)
Record Response : Type := {
  resp_status : Z;
  resp_headers : gmap string string;
  resp_json : Result JsValue;
  resp_text : Result string
}.

(** [APIResponse.ok()] of the transport: the status is within 200..299. *)
Definition resp_ok (r : Response) : bool :=
  (200 <=? resp_status r) && (resp_status r <=? 299).

Inductive Outcome : Type :=
| Reply (r : Response)
| Fault (e : Exn).

(** The HTTP transport: the answer to the [n]-th request sent (counting from
    0), which may depend on the request. *)
Definition Transport : Type := nat → Request → Outcome.

(** [interface ApiResponse<T>]; its members [headers] and [data] are
    [response_headers] and [response_data] here, next to those of
    [RequestOptions]. *)
Record ApiResponse : Type := {
  status : Z;
  response_headers : gmap string string;
  response_data : JsValue;
  ok : bool
}.

(** The request context opened by [init], with the options it was created
    from. *)
Record Context : Type := {
  ctx_baseURL : string;
  ctx_extraHTTPHeaders : gmap string string
}.

(** What the client does to the outside world, oldest first.  Console lines
    carry level, logger name and message; the time stamp and the stack text
    printed after an error message are left out. *)
Inductive Event : Type :=
| EvLog (level : Logger.LogLevel) (name message : string)
| EvNewContext (c : Context)
| EvDisposeContext (c : Context)
| EvRequest (q : Request)
| EvSleep (ms : Z).

(** The fields of the class, and the trace of effects so far. *)
Record State : Type := {
  context : option Context;
  baseURL : string;
  defaultHeaders : gmap string string;
  logger : Logger.t;
  trace : list Event
}.

Definition emit (e : Event) (s : State) : State :=
  {| context := context s; baseURL := baseURL s; defaultHeaders := defaultHeaders s;
     logger := logger s; trace := trace s ++ [e] |}.

Definition set_context (c : option Context) (s : State) : State :=
  {| context := c; baseURL := baseURL s; defaultHeaders := defaultHeaders s;
     logger := logger s; trace := trace s |}.

Definition set_defaultHeaders (h : gmap string string) (s : State) : State :=
  {| context := context s; baseURL := baseURL s; defaultHeaders := h;
     logger := logger s; trace := trace s |}.

(** The requests of a trace, oldest first. *)
Definition requests (t : list Event) : list Request :=
  omap (λ e, match e with EvRequest q => Some q | _ => None end) t.

(** Number of requests handed to the transport so far. *)
Definition sent (s : State) : nat := length (requests (trace s)).

(** [this.logger.info / warn / error] *)
Definition log (level : Logger.LogLevel) (message : string) : M State unit :=
  λ s, (Ok tt,
        if Logger.shouldLog (logger s) level
        then emit (EvLog level (Logger.className (logger s)) message) s
        else s).

Definition info := log Logger.INFO.
Definition warn := log Logger.WARN.
Definition error := log Logger.ERROR.

(** [new ApiClient(baseURL, defaultHeaders = {})], in a process whose
    LOG_LEVEL variable is [LOG_LEVEL]. *)
Definition new (LOG_LEVEL : option string) (url : string)
    (hdrs : gmap string string) : State :=
  {| context := None;
     baseURL := url;
     defaultHeaders :=
       hdrs ∪ <["Content-Type" := "application/json"]>
                (<["Accept" := "application/json"]> ∅);
     logger := Logger.new LOG_LEVEL "ApiClient";
     trace := [] |}.

Definition init : M State unit :=
  let* url := gets baseURL in
  let* hdrs := gets defaultHeaders in
  let c := {| ctx_baseURL := url; ctx_extraHTTPHeaders := hdrs |} in
  let* _ := modify (emit (EvNewContext c)) in
  let* _ := modify (set_context (Some c)) in
  info ("API client initialized with baseURL: " +:+ url).

Definition dispose : M State unit :=
  let* c := gets context in
  match c with
  | Some c =>
      let* _ := modify (emit (EvDisposeContext c)) in
      let* _ := modify (set_context None) in
      info "API client disposed"
  | None => ret tt
  end.

Definition setAuthToken (token : string) : M State unit :=
  let* h := gets defaultHeaders in
  let* _ := modify (set_defaultHeaders (<["Authorization" := "Bearer " +:+ token]> h)) in
  info "Authentication token set".

Definition clearAuthToken : M State unit :=
  let* h := gets defaultHeaders in
  let* _ := modify (set_defaultHeaders (delete "Authorization" h)) in
  info "Authentication token cleared".

Section WithTransport.

Variable transport : Transport.

(** [await this.context.get(url, options)] and its siblings: the request is
    handed to the transport, which replies or raises a fault. *)
Definition send (v : Verb) (url : string) (o : FetchOptions) : M State Response :=
  λ s, let q := {| req_verb := v; req_url := url; req_options := o |} in
       match transport (sent s) q with
       | Reply r => (Ok r, emit (EvRequest q) s)
       | Fault e => (Throw e, emit (EvRequest q) s)
       end.

(** The body of the [try] block of [processResponse]. *)
Definition read_body (response : Response) : M State JsValue :=
  let contentType := match resp_headers response !! "content-type" with
                     | Some v => v
                     | None => EmptyString
                     end in
  if includes "application/json" contentType
  then match resp_json response with
       | Ok v => ret v
       | Throw e => throw e
       end
  else match resp_text response with
       | Ok t => ret (JsString t)
       | Throw e => throw e
       end.

Definition processResponse (response : Response) : M State ApiResponse :=
  let st := resp_status response in
  let hs := resp_headers response in
  let is_ok := resp_ok response in
  let* d := try_catch (read_body response)
              (λ _, let* _ := warn "Failed to parse response body" in ret JsNull) in
  let* _ := info ("Response: " +:+ pretty st +:+ " " +:+ (if is_ok then "OK" else "ERROR")) in
  let* _ := (if negb is_ok then error ("API request failed: " +:+ pretty st) else ret tt) in
  ret {| status := st; response_headers := hs; response_data := d; ok := is_ok |}.

Definition not_initialized : Exn := Error "API client not initialized".

(** The options object [makeRequest] builds: the defaults overridden by the
    headers of the call, [timeout || 30000], and [data] when it is truthy. *)
Definition requestOptions (options : RequestOptions)
    (defaults : gmap string string) : FetchOptions :=
  let hdrs := match headers options with Some h => h | None => ∅ end in
  let mergedHeaders := hdrs ∪ defaults in
  Fetch mergedHeaders
        (match timeout options with
         | Some t => if t =? 0 then 30000 else t
         | None => 30000
         end)
        (match data options with
         | Some d => if truthy d then Some d else None
         | None => None
         end).

(** The url [makeRequest] requests: [params], when given, are appended as a
    query string. *)
Definition with_params (url : string) (options : RequestOptions) : string :=
  match params options with
  | Some p => url +:+ (if includes "?" url then "&" else "?")
                  +:+ searchParams_toString p
  | None => url
  end.

Definition makeRequest (method url : string) (options : RequestOptions)
    : M State ApiResponse :=
  let* c := gets context in
  match c with
  | None => throw not_initialized
  | Some _ =>
      let* defaults := gets defaultHeaders in
      let* _ := info ("Making " +:+ method +:+ " request to " +:+ url) in
      let opts := requestOptions options defaults in
      let url := with_params url options in
      let m := toUpperCase method in
      let* response :=
        (if String.eqb m "GET" then send GET url opts
         else if String.eqb m "POST" then send POST url opts
         else if String.eqb m "PUT" then send PUT url opts
         else if String.eqb m "PATCH" then send PATCH url opts
         else if String.eqb m "DELETE" then send DELETE url opts
         else throw (Error ("Unsupported HTTP method: " +:+ method))) in
      processResponse response
  end.

Definition get (url : string) (options : RequestOptions) : M State ApiResponse :=
  makeRequest "GET" url options.

Definition post (url : string) (d : option JsValue) (options : RequestOptions)
    : M State ApiResponse :=
  makeRequest "POST" url (with_data options d).

Definition put (url : string) (d : option JsValue) (options : RequestOptions)
    : M State ApiResponse :=
  makeRequest "PUT" url (with_data options d).

Definition patch (url : string) (d : option JsValue) (options : RequestOptions)
    : M State ApiResponse :=
  makeRequest "PATCH" url (with_data options d).

Definition delete (url : string) (options : RequestOptions) : M State ApiResponse :=
  makeRequest "DELETE" url options.

(** [uploadFile(url, filePath, fieldName = 'file', additionalData = {})] *)
Definition uploadFile (url filePath fieldName : string)
    (additionalData : gmap string JsValue) : M State ApiResponse :=
  let* c := gets context in
  match c with
  | None => throw not_initialized
  | Some _ =>
      let formData := (FormField <$> additionalData)
                        ∪ <[fieldName := FileStream filePath]> ∅ in
      let* _ := info ("Uploading file to " +:+ url) in
      let* response := send POST url (Multipart formData) in
      processResponse response
  end.

Definition healthCheck : M State bool :=
  try_catch
    (let* response := get "/health" no_options in ret (ok response))
    (λ _, let* _ := error "Health check failed" in ret false).

Definition sleep (ms : Z) : M State unit := modify (emit (EvSleep ms)).

Definition timed_out : Exn := Error "API failed to become ready within timeout".

(** The loop of [waitForApiReady].  [attempt] runs from 1 while
    [attempt <= maxAttempts] and nothing in the body changes either, so
    [remaining] counts the iterations that are left. *)
Fixpoint waitLoop (remaining : nat) (attempt maxAttempts delay : Z) : M State unit :=
  match remaining with
  | O => throw timed_out
  | S remaining' =>
      let* _ := info ("Checking API readiness (attempt " +:+ pretty attempt
                      +:+ "/" +:+ pretty maxAttempts +:+ ")") in
      let* ready := healthCheck in
      if ready then info "API is ready"
      else
        let* _ := (if attempt <? maxAttempts
                   then let* _ := info ("API not ready, waiting " +:+ pretty delay +:+ "ms...") in
                        sleep delay
                   else ret tt) in
        waitLoop remaining' (attempt + 1) maxAttempts delay
  end.

(** [waitForApiReady(maxAttempts = 10, delay = 2000)], for whole numbers of
    attempts and of milliseconds. *)
Definition waitForApiReady (maxAttempts delay : Z) : M State unit :=
  waitLoop (Z.to_nat maxAttempts) 1 maxAttempts delay.

End WithTransport.

End ApiClient.

(** ** [fixtures/test-data-factory.ts] *)

Module TestDataFactory.

Inductive UserType : Type := fan | band | solo_artist.

Record BandMember : Type := {
  name : string;
  instrument : string;
  role : string
}.

(** [interface UserData]; an optional member is [None] when the object has no
    such key. *)
Record UserData : Type := {
  firstName : string;
  lastName : string;
  email : string;
  phone : string;
  password : string;
  userType : UserType;
  genre : option (list string);
  instruments : option (list string);
  bandMembers : option (list BandMember)
}.

(** [interface EventData]; its member [genre] is [event_genre] here, next to
    the one of [UserData]. *)
Record EventData : Type := {
  title : string;
  description : string;
  date : string;
  time : string;
  venue : string;
  address : string;
  city : string;
  state : string;
  zipCode : string;
  ticketPrice : Z;
  capacity : Z;
  event_genre : list string
}.

(** How many values the random source and the clock have handed out. *)
Record State : Type := { draws : nat; reads : nat }.

(** [Math.random()] yields a multiple of 2^-53 in [0, 1); such a number is
    kept as its numerator.  Products and sums of these numbers are taken
    exactly, the rounding of the floating-point operations is not part of the
    model. *)
Definition unit : Z := 2 ^ 53.
Definition half : Z := 2 ^ 52.

(** [Math.floor(x)] for [x] given as a numerator over 2^53. *)
Definition floor (x : Z) : Z := x / unit.

Definition msPerDay : Z := 86400000.
Definition maxTime : Z := 8640000000000000.

(** The platform under the factory.
    - [random i] is the numerator of the [i]-th result of [Math.random()];
    - [clock i] is the [i]-th reading of the system clock, in milliseconds
      since the epoch;
    - [LocalTZA t isUTC] is the offset of the local time zone in milliseconds,
      at the instant [t] when [isUTC], at the local time [t] otherwise;
    - [sort cmp l] is [l.sort(cmp)].  The comparator of the factory is not a
      consistent ordering, so the order of the result is the engine's choice;
      the result is a rearrangement of [l] whenever [cmp] returns. *)
Record Engine : Type := {
  random : nat → Z;
  random_range : ∀ i, 0 ≤ random i < unit;
  clock : nat → Z;
  clock_range : ∀ i, - maxTime ≤ clock i ≤ maxTime;
  LocalTZA : Z → bool → Z;
  sort : ∀ A : Type, (A → A → M State Z) → list A → M State (list A);
  sort_permutes : ∀ (A : Type) (cmp : A → A → M State Z),
    (∀ a b s0, ∃ z s1, cmp a b s0 = (Ok z, s1)) →
    ∀ (l : list A) (s : State), ∃ l' s', sort A cmp l s = (Ok l', s') ∧ l' ≡ₚ l
}.

(** *** Dates *)

Definition Day (t : Z) : Z := t / msPerDay.
Definition TimeWithinDay (t : Z) : Z := t mod msPerDay.

(** Year, month (1..12) and day of the month (1..31) of a day number in the
    proleptic Gregorian calendar. *)
Definition civil (d : Z) : Z * Z * Z :=
  let z := d + 719468 in
  let era := z / 146097 in
  let doe := z - era * 146097 in
  let yoe := (doe - doe / 1460 + doe / 36524 - doe / 146096) / 365 in
  let doy := doe - (365 * yoe + yoe / 4 - yoe / 100) in
  let mp := (5 * doy + 2) / 153 in
  let dd := doy - (153 * mp + 2) / 5 + 1 in
  let m := if mp <? 10 then mp + 3 else mp - 9 in
  (yoe + era * 400 + (if m <=? 2 then 1 else 0), m, dd).

Definition YearFromTime (t : Z) : Z := (civil (Day t)).1.1.
Definition MonthFromTime (t : Z) : Z := (civil (Day t)).1.2.
Definition DateFromTime (t : Z) : Z := (civil (Day t)).2.

(** [TimeClip]: [None] is the time value NaN of an invalid date. *)
Definition TimeClip (t : Z) : option Z :=
  if Z.abs t <=? maxTime then Some t else None.

Fixpoint zeros (n : nat) : string :=
  match n with O => EmptyString | S k => String "0" (zeros k) end.

(** Decimal digits of [n >= 0], padded with zeros on the left to [width]. *)
Definition pad (width : nat) (n : Z) : string :=
  let digits := pretty n in
  zeros (width - String.length digits) +:+ digits.

Definition iso_year (y : Z) : string :=
  if (0 <=? y) && (y <=? 9999) then pad 4 y
  else (if 0 <=? y then "+" else "-") +:+ pad 6 (Z.abs y).

(** The text of [toISOString] for the time value [t]. *)
Definition iso_string (t : Z) : string :=
  let ms := TimeWithinDay t in
  iso_year (YearFromTime t) +:+ "-" +:+ pad 2 (MonthFromTime t)
  +:+ "-" +:+ pad 2 (DateFromTime t)
  +:+ "T" +:+ pad 2 (ms / 3600000) +:+ ":" +:+ pad 2 (ms / 60000 mod 60)
  +:+ ":" +:+ pad 2 (ms / 1000 mod 60) +:+ "." +:+ pad 3 (ms mod 1000) +:+ "Z".

Section WithEngine.

Variable E : Engine.

Definition Math_random : M State Z :=
  λ s, (Ok (random E (draws s)), {| draws := S (draws s); reads := reads s |}).

(** [new Date()]: the time value of a fresh date object. *)
Definition Date_new : M State (option Z) :=
  λ s, (Ok (TimeClip (clock E (reads s))), {| draws := draws s; reads := S (reads s) |}).

(** [Date.now()] *)
Definition Date_now : M State Z :=
  λ s, (Ok (clock E (reads s)), {| draws := draws s; reads := S (reads s) |}).

Definition LocalTime (t : Z) : Z := t + LocalTZA E t true.
Definition UTC (t : Z) : Z := t - LocalTZA E t false.

(** [d.getDate()]; [None] is NaN. *)
Definition getDate (tv : option Z) : option Z :=
  match tv with
  | Some t => Some (DateFromTime (LocalTime t))
  | None => None
  end.

(** [d.setDate(dt)], returning the new time value of [d].  [MakeDay] is
    asked for day [dt] of the month [t] lies in; that month starts on day
    number [Day t - (DateFromTime t - 1)]. *)
Definition setDate (tv : option Z) (dt : option Z) : option Z :=
  match tv, dt with
  | Some tv, Some dt =>
      let t := LocalTime tv in
      let day := Day t - (DateFromTime t - 1) + dt - 1 in
      let newDate := day * msPerDay + TimeWithinDay t in
      TimeClip (UTC newDate)
  | _, _ => None
  end.

(** [d.toISOString()] *)
Definition toISOString (tv : option Z) : M State string :=
  match tv with
  | None => throw (RangeError "Invalid time value")
  | Some t => ret (iso_string t)
  end.

(** *** Helpers of the factory *)

(** [Math.floor(Math.random() * n)] *)
Definition random_below (n : Z) : M State Z :=
  let* r := Math_random in ret (floor (r * n)).

(** [xs[i]].  Every index the factory uses lies within the array (see
    [random_below_range]); outside of it JavaScript yields [undefined], for
    which the empty string stands here. *)
Definition index (xs : list string) (i : Z) : string :=
  if i <? 0 then EmptyString
  else match xs !! Z.to_nat i with Some x => x | None => EmptyString end.

(** [xs[Math.floor(Math.random() * xs.length)]] *)
Definition pick (xs : list string) : M State string :=
  let* i := random_below (Z.of_nat (length xs)) in ret (index xs i).

(** [xs.slice(0, count)] *)
Definition slice0 {A} (xs : list A) (count : Z) : list A :=
  if 0 <=? count then take (Z.to_nat count) xs
  else take (length xs - Z.to_nat (- count)) xs.

(** [[...xs].sort(() => 0.5 - Math.random())] *)
Definition shuffled (xs : list string) : M State (list string) :=
  sort E string (λ _ _, let* r := Math_random in ret (half - r)) xs.

Definition firstNames : list string :=
  ["Alex"; "Jamie"; "Taylor"; "Jordan"; "Casey"; "Riley"; "Morgan"; "Drew";
   "Sam"; "Avery"; "Quinn"; "Blake"; "Sage"; "River"; "Rowan"; "Skylar"].

Definition lastNames : list string :=
  ["Smith"; "Johnson"; "Williams"; "Brown"; "Jones"; "Garcia"; "Miller";
   "Davis"; "Rodriguez"; "Martinez"; "Hernandez"; "Lopez"; "Gonzalez";
   "Wilson"; "Anderson"; "Thomas"; "Taylor"; "Moore"; "Jackson"; "Martin"].

Definition genres : list string :=
  ["Rock"; "Pop"; "Jazz"; "Blues"; "Country"; "Electronic"; "Hip Hop";
   "Classical"; "Folk"; "Reggae"; "R&B"; "Indie"; "Alternative"; "Metal"].

Definition instrumentNames : list string :=
  ["Guitar"; "Bass"; "Drums"; "Piano"; "Keyboard"; "Violin"; "Saxophone";
   "Trumpet"; "Flute"; "Clarinet"; "Vocals"; "Cello"; "Harmonica"; "Ukulele"].

Definition roles : list string :=
  ["Lead Vocalist"; "Guitarist"; "Bassist"; "Drummer"; "Keyboardist"].

Definition getRandomFirstName : M State string := pick firstNames.
Definition getRandomLastName : M State string := pick lastNames.

Definition generatePhoneNumber : M State string :=
  let* a := random_below 900 in
  let areaCode := a + 100 in
  let* b := random_below 900 in
  let exchange := b + 100 in
  let* c := random_below 9000 in
  let number := c + 1000 in
  ret (pretty areaCode +:+ "-" +:+ pretty exchange +:+ "-" +:+ pretty number).

Definition getRandomGenres (count : Z) : M State (list string) :=
  let* sh := shuffled genres in ret (slice0 sh count).

Definition getRandomInstruments (count : Z) : M State (list string) :=
  let* sh := shuffled instrumentNames in ret (slice0 sh count).

(** The loop of [generateBandMembers]: [i] runs from 0 while
    [i < memberCount], [remaining] counts the iterations that are left. *)
Fixpoint bandMembers_loop (remaining : nat) (i : Z) (instrs : list string)
    (members : list BandMember) : M State (list BandMember) :=
  match remaining with
  | O => ret members
  | S remaining' =>
      let* f := getRandomFirstName in
      let* l := getRandomLastName in
      let member := {| name := f +:+ " " +:+ l;
                       instrument := index instrs i;
                       role := if String.eqb (index roles i) EmptyString
                               then "Musician" else index roles i |} in
      bandMembers_loop remaining' (i + 1) instrs (members ++ [member])
  end.

Definition generateBandMembers : M State (list BandMember) :=
  let* n := random_below 4 in
  let memberCount := n + 2 in
  let* instrs := getRandomInstruments memberCount in
  bandMembers_loop (Z.to_nat memberCount) 0 instrs [].

Definition set_genre (g : list string) (u : UserData) : UserData :=
  {| firstName := firstName u; lastName := lastName u; email := email u;
     phone := phone u; password := password u; userType := userType u;
     genre := Some g; instruments := instruments u; bandMembers := bandMembers u |}.

Definition set_instruments (i : list string) (u : UserData) : UserData :=
  {| firstName := firstName u; lastName := lastName u; email := email u;
     phone := phone u; password := password u; userType := userType u;
     genre := genre u; instruments := Some i; bandMembers := bandMembers u |}.

Definition set_bandMembers (b : list BandMember) (u : UserData) : UserData :=
  {| firstName := firstName u; lastName := lastName u; email := email u;
     phone := phone u; password := password u; userType := userType u;
     genre := genre u; instruments := instruments u; bandMembers := Some b |}.

(** [generateUser(userType = 'fan')] *)
Definition generateUser (ty : UserType) : M State UserData :=
  let* f := getRandomFirstName in
  let* l := getRandomLastName in
  let* now := Date_now in
  let mail := "test-" +:+ toLowerCase f +:+ "-" +:+ pretty now
              +:+ "@example.amazonses.com" in
  let* ph := generatePhoneNumber in
  let userData := {| firstName := f; lastName := l; email := mail; phone := ph;
                     password := "TestPassword123!"; userType := ty;
                     genre := None; instruments := None; bandMembers := None |} in
  match ty with
  | band =>
      let* g := getRandomGenres 2 in
      let userData := set_genre g userData in
      let* bm := generateBandMembers in
      ret (set_bandMembers bm userData)
  | solo_artist =>
      let* g := getRandomGenres 1 in
      let userData := set_genre g userData in
      let* ins := getRandomInstruments 2 in
      ret (set_instruments ins userData)
  | fan => ret userData
  end.

Definition eventTitles : list string :=
  ["Summer Music Festival"; "Rock Night"; "Jazz Evening"; "Acoustic Session";
   "Electronic Beats"; "Country Roads"; "Indie Showcase"; "Metal Mayhem";
   "Blues Brothers"; "Pop Paradise"; "Folk Tales"; "Classical Concert"].

Definition eventDescriptions : list string :=
  ["Join us for an unforgettable night of live music and entertainment.";
   "Experience the best local talent in an intimate venue setting.";
   "A celebration of music that will leave you wanting more.";
   "Don't miss this incredible showcase of musical artistry.";
   "An evening filled with amazing performances and great vibes."].

Definition venues : list string :=
  ["The Music Hall"; "Downtown Theater"; "Rock Palace"; "Jazz Lounge";
   "Concert Arena"; "The Stage"; "Music Box"; "Harmony Hall";
   "Sound Stage"; "The Venue"; "Live House"; "Performance Center"].

Definition streetNames : list string :=
  ["Main St"; "Oak Ave"; "Park Blvd"; "First St"; "Broadway";
   "Center St"; "Church St"; "Music Ave"; "Concert Dr"; "Harmony Ln"].

Definition cities : list string :=
  ["Austin"; "Nashville"; "Los Angeles"; "New York"; "Chicago";
   "Seattle"; "Portland"; "Denver"; "Atlanta"; "Miami"].

Definition states : list string :=
  ["TX"; "TN"; "CA"; "NY"; "IL"; "WA"; "OR"; "CO"; "GA"; "FL"].

Definition getRandomEventTitle : M State string := pick eventTitles.
Definition getRandomEventDescription : M State string := pick eventDescriptions.
Definition getRandomVenue : M State string := pick venues.
Definition getRandomCity : M State string := pick cities.
Definition getRandomState : M State string := pick states.

Definition getRandomTime : M State string :=
  let* h := random_below 12 in
  let hours := h + 7 in
  let* r := Math_random in
  let minutes := if half <? r then "00" else "30" in
  let period := if hours <=? 11 then "PM" else "AM" in
  let displayHour := if 12 <? hours then hours - 12 else hours in
  ret (pretty displayHour +:+ ":" +:+ minutes +:+ " " +:+ period).

Definition getRandomAddress : M State string :=
  let* n := random_below 9999 in
  let streetNumber := n + 1 in
  let* streetName := pick streetNames in
  ret (pretty streetNumber +:+ " " +:+ streetName).

Definition generateZipCode : M State string :=
  let* r := Math_random in
  ret (pretty (floor (r * 90000 + 10000 * unit))).

(** The days [generateEvent] adds to the day of the month:
    [Math.floor(Math.random() * 30) + 1]. *)
Definition days_ahead : M State Z :=
  let* k := random_below 30 in ret (k + 1).

Definition generateEvent : M State EventData :=
  let* gs := getRandomGenres 1 in
  let* eventDate := Date_new in
  let* k := days_ahead in
  let eventDate := setDate eventDate
                     (match getDate eventDate with
                      | Some d => Some (d + k)
                      | None => None
                      end) in
  let* t := getRandomEventTitle in
  let* descr := getRandomEventDescription in
  let* iso := toISOString eventDate in
  let* tm := getRandomTime in
  let* v := getRandomVenue in
  let* a := getRandomAddress in
  let* c := getRandomCity in
  let* st := getRandomState in
  let* z := generateZipCode in
  let* p := random_below 100 in
  let* cap := random_below 500 in
  ret {| title := t +:+ " Concert"; description := descr;
         date := before_first "T" iso; time := tm; venue := v; address := a;
         city := c; state := st; zipCode := z;
         ticketPrice := p + 20; capacity := cap + 50; event_genre := gs |}.

Definition userTypes : list UserType := [fan; band; solo_artist].

(** The loop of [generateUsers]: [i] runs from 0 while [i < count],
    [remaining] counts the iterations that are left.  An index outside
    [userTypes] would yield [undefined], for which the default parameter value
    ['fan'] of [generateUser] steps in. *)
Fixpoint generateUsers_loop (remaining : nat) (i : Z) (users : list UserData)
    : M State (list UserData) :=
  match remaining with
  | O => ret users
  | S remaining' =>
      let ty := match userTypes !! Z.to_nat (i mod Z.of_nat (length userTypes)) with
                | Some ty => ty
                | None => fan
                end in
      let* u := generateUser ty in
      generateUsers_loop remaining' (i + 1) (users ++ [u])
  end.

(** [generateUsers(count)], for a whole number [count]. *)
Definition generateUsers (count : Z) : M State (list UserData) :=
  generateUsers_loop (Z.to_nat count) 0 [].

End WithEngine.

(** The own keys of a user record, in the order the factory sets them. *)
Definition keys (u : UserData) : list string :=
  ["firstName"; "lastName"; "email"; "phone"; "password"; "userType"]
  ++ match genre u with Some _ => ["genre"] | None => [] end
  ++ match bandMembers u with Some _ => ["bandMembers"] | None => [] end
  ++ match instruments u with Some _ => ["instruments"] | None => [] end.

End TestDataFactory.

(** ** Concrete platforms

    Engines on which the factory can be run: a random source that repeats a
    given list of numerators, a clock that stands still, a time zone, and
    insertion sort for [Array.prototype.sort]. *)

Module Engines.

Import TestDataFactory.

Section InsertionSort.

Context {A : Type}.
Variable cmp : A → A → M State Z.

(** [x] goes before the first element it does not compare greater than. *)
Fixpoint insert (x : A) (l : list A) : M State (list A) :=
  match l with
  | [] => ret [x]
  | y :: l' =>
      let* c := cmp x y in
      if c <=? 0 then ret (x :: y :: l')
      else let* r := insert x l' in ret (y :: r)
  end.

Fixpoint insertion_sort (l : list A) : M State (list A) :=
  match l with
  | [] => ret []
  | x :: l' => let* r := insertion_sort l' in insert x r
  end.

Hypothesis cmp_returns : ∀ a b s0, ∃ z s1, cmp a b s0 = (Ok z, s1).

Lemma insert_permutes x l s :
  ∃ l' s', insert x l s = (Ok l', s') ∧ l' ≡ₚ x :: l.
Proof.
  revert s. induction l as [|y l IH]; intros s; simpl.
  - eexists _, _. split; [reflexivity | done].
  - unfold bind. destruct (cmp_returns x y s) as (z & s1 & ->).
    destruct (z <=? 0).
    + eexists _, _. split; [reflexivity | done].
    + destruct (IH s1) as (l' & s' & -> & Hp).
      eexists _, _. split; [reflexivity |].
      rewrite Hp. apply Permutation_swap.
Qed.

Lemma insertion_sort_permutes l s :
  ∃ l' s', insertion_sort l s = (Ok l', s') ∧ l' ≡ₚ l.
Proof.
  revert s. induction l as [|x l IH]; intros s; simpl.
  - eexists _, _. split; [reflexivity | done].
  - unfold bind. destruct (IH s) as (l1 & s1 & -> & Hp1).
    destruct (insert_permutes x l1 s1) as (l2 & s2 & -> & Hp2).
    eexists _, _. split; [reflexivity |].
    by rewrite Hp2, Hp1.
Qed.

End InsertionSort.

(** The numerators of [l], over and over; 0 throughout for an empty [l]. *)
Definition cycle (l : list Z) (i : nat) : Z :=
  match l !! (i mod length l)%nat with
  | Some r => r mod unit
  | None => 0
  end.

Lemma cycle_range l i : 0 ≤ cycle l i < unit.
Proof.
  unfold cycle. destruct (l !! _).
  - apply Z.mod_pos_bound. reflexivity.
  - split; [lia | reflexivity].
Qed.

(** A clock that shows [now], brought within the range of time values. *)
Definition frozen (now : Z) (_ : nat) : Z :=
  Z.max (- maxTime) (Z.min maxTime now).

Lemma frozen_range now i : - maxTime ≤ frozen now i ≤ maxTime.
Proof. unfold frozen, maxTime. lia. Qed.

Definition engine (rnd : list Z) (now : Z) (tza : Z → bool → Z) : Engine :=
  {| random := cycle rnd;
     random_range := cycle_range rnd;
     clock := frozen now;
     clock_range := frozen_range now;
     LocalTZA := tza;
     sort := @insertion_sort;
     sort_permutes := @insertion_sort_permutes |}.

(** Universal time. *)
Definition utc_zone (_ : Z) (_ : bool) : Z := 0.

(** Central European time around the start of summer time on 2024-03-31:
    one hour ahead of universal time before 01:00 UTC of that day, two hours
    from then on.  A local time the change skips is read with the offset
    before the change. *)
Definition cet_2024 (t : Z) (isUTC : bool) : Z :=
  if isUTC
  then (if t <? 1711846800000 then 3600000 else 7200000)
  else (if t <? 1711846800000 + 7200000 then 3600000 else 7200000).

End Engines.

(** * Properties of the API client *)

Module ApiClientProofs.

Import ApiClient.

(** ** Vocabulary of the statements *)

Definition is_log (e : Event) : bool :=
  match e with EvLog _ _ _ => true | _ => false end.

(** What a trace shows besides console lines: contexts opened and disposed,
    requests, delays. *)
Definition effects (t : list Event) : list Event :=
  List.filter (λ e, negb (is_log e)) t.

(** Two states of the client that differ in console lines at most. *)
Definition similar (s s' : State) : Prop :=
  context s = context s' ∧ baseURL s = baseURL s'
  ∧ defaultHeaders s = defaultHeaders s' ∧ logger s = logger s'
  ∧ effects (trace s) = effects (trace s').

Infix "≃" := similar (at level 70).

(** The envelope [processResponse] builds around a decoded body. *)
Definition envelope (r : Response) (d : JsValue) : ApiResponse :=
  {| status := resp_status r; response_headers := resp_headers r;
     response_data := d; ok := resp_ok r |}.

(** The five verb methods behind one name; [d] is the body argument of
    [post], [put] and [patch]. *)
Definition call (T : Transport) (v : Verb) (url : string) (d : option JsValue)
    (o : RequestOptions) : M State ApiResponse :=
  match v with
  | GET => get T url o
  | POST => post T url d o
  | PUT => put T url d o
  | PATCH => patch T url d o
  | DELETE => delete T url o
  end.

(** The options [call] passes on to [makeRequest]. *)
Definition call_options (v : Verb) (d : option JsValue) (o : RequestOptions)
    : RequestOptions :=
  match v with
  | GET | DELETE => o
  | POST | PUT | PATCH => with_data o d
  end.

(** The request a verb call makes from a state with default headers
    [defaultHeaders s]. *)
Definition request_of (s : State) (v : Verb) (url : string) (d : option JsValue)
    (o : RequestOptions) : Request :=
  let o' := call_options v d o in
  {| req_verb := v; req_url := with_params url o';
     req_options := requestOptions o' (defaultHeaders s) |}.

Definition request_headers (q : Request) : option (gmap string string) :=
  match req_options q with
  | Fetch h _ _ => Some h
  | Multipart _ => None
  end.

(** The request of [healthCheck]. *)
Definition health_request (s : State) : Request := request_of s GET "/health" None no_options.

(** What the [i]-th health check counted from [s] yields, when nothing but
    health checks and delays happens in between: [false] on a client without
    context, else what the transport makes of the request. *)
Definition check_result (T : Transport) (s : State) (i : nat) : bool :=
  match context s with
  | None => false
  | Some _ =>
      match T (sent s + i)%nat (health_request s) with
      | Reply r => resp_ok r
      | Fault _ => false
      end
  end.

(** The effect of one health check: one request, when there is a context. *)
Definition check_events (s : State) : list Event :=
  match context s with
  | None => []
  | Some _ => [EvRequest (health_request s)]
  end.

(** [failed] health checks, a delay of [delay] after each, then one more
    health check. *)
Fixpoint polling (s : State) (delay : Z) (failed : nat) : list Event :=
  match failed with
  | O => check_events s
  | S k => check_events s ++ EvSleep delay :: polling s delay k
  end.

Definition sleeps (t : list Event) : list Z :=
  omap (λ e, match e with EvSleep ms => Some ms | _ => None end) t.

(** ** States up to console lines *)

Lemma similar_refl s : s ≃ s.
Proof. by repeat split. Qed.

Lemma similar_sym s s' : s ≃ s' → s' ≃ s.
Proof. intros (? & ? & ? & ? & ?). by repeat split. Qed.

Lemma similar_trans s1 s2 s3 : s1 ≃ s2 → s2 ≃ s3 → s1 ≃ s3.
Proof.
  intros (? & ? & ? & ? & ?) (? & ? & ? & ? & ?).
  repeat split; congruence.
Qed.

Lemma effects_app t1 t2 : effects (t1 ++ t2) = effects t1 ++ effects t2.
Proof. apply List.filter_app. Qed.

Lemma similar_emit e s s' : s ≃ s' → emit e s ≃ emit e s'.
Proof.
  intros (? & ? & ? & ? & Ht). repeat split; simpl; try done.
  by rewrite !effects_app, Ht.
Qed.

Lemma similar_emit_log l n m s : emit (EvLog l n m) s ≃ s.
Proof.
  repeat split; simpl. rewrite effects_app. simpl. apply app_nil_r.
Qed.

Lemma requests_effects t : requests (effects t) = requests t.
Proof.
  induction t as [|e t IH]; [done|].
  destruct e; simpl; rewrite ?IH; done.
Qed.

Lemma similar_sent s s' : s ≃ s' → sent s = sent s'.
Proof.
  intros (_ & _ & _ & _ & Ht). unfold sent.
  by rewrite <- (requests_effects (trace s)), Ht, requests_effects.
Qed.

Lemma effects_emit e s :
  effects (trace (emit e s)) = effects (trace s) ++ (if is_log e then [] else [e]).
Proof. simpl. rewrite effects_app. simpl. by destruct (is_log e). Qed.

Lemma sent_emit_request q s : sent (emit (EvRequest q) s) = S (sent s).
Proof.
  unfold sent, requests. simpl. rewrite omap_app, length_app. simpl. lia.
Qed.

(** ** The logger *)

Lemma log_spec l m s : ∃ s', log l m s = (Ok tt, s') ∧ s' ≃ s.
Proof.
  unfold log. destruct (Logger.shouldLog _ _); eexists; split; try reflexivity.
  - apply similar_emit_log.
  - apply similar_refl.
Qed.

(** ** Responses *)

Lemma read_body_state r s : (read_body r s).2 = s.
Proof.
  unfold read_body.
  destruct (includes _ _); [destruct (resp_json r) | destruct (resp_text r)]; done.
Qed.

Lemma read_body_indep r s s' : read_body r s' = ((read_body r s).1, s').
Proof.
  unfold read_body.
  destruct (includes _ _); [destruct (resp_json r) | destruct (resp_text r)]; done.
Qed.

Lemma processResponse_spec r s :
  ∃ d s', processResponse r s = (Ok (envelope r d), s') ∧ s' ≃ s
          ∧ (∀ e s1, read_body r s = (Throw e, s1) → d = JsNull)
          ∧ (∀ v s1, read_body r s = (Ok v, s1) → d = v).
Proof.
  unfold processResponse, bind, try_catch.
  pose proof (read_body_state r s) as Hst.
  destruct (read_body r s) as [[v|e] s0] eqn:Hbody; simpl in Hst; subst s0.
  - unfold info, error.
    destruct (log_spec Logger.INFO
      ("Response: " +:+ pretty (resp_status r) +:+ " "
         +:+ (if resp_ok r then "OK" else "ERROR")) s) as (s1 & -> & H1).
    destruct (negb (resp_ok r)).
    + destruct (log_spec Logger.ERROR
        ("API request failed: " +:+ pretty (resp_status r)) s1) as (s2 & -> & H2).
      exists v, s2. split; [done|]. split; [by eapply similar_trans|]. split; congruence.
    + exists v, s1. split; [done|]. split; [done|]. split; congruence.
  - unfold warn, info, error.
    destruct (log_spec Logger.WARN "Failed to parse response body" s) as (s0 & -> & H0).
    cbn [ret].
    destruct (log_spec Logger.INFO
      ("Response: " +:+ pretty (resp_status r) +:+ " "
         +:+ (if resp_ok r then "OK" else "ERROR")) s0) as (s1 & -> & H1).
    assert (s1 ≃ s) as H01 by (by eapply similar_trans).
    destruct (negb (resp_ok r)).
    + destruct (log_spec Logger.ERROR
        ("API request failed: " +:+ pretty (resp_status r)) s1) as (s2 & -> & H2).
      exists JsNull, s2. split; [done|]. split; [by eapply similar_trans|]. split; [done | congruence].
    + exists JsNull, s1. split; [done|]. split; [done|]. split; [done | congruence].
Qed.

(** ** Requests *)

(** A verb call on a client with a context: one request goes to the
    transport; a reply comes back in an envelope, a fault is thrown on. *)
Lemma call_spec T v url d o s c :
  context s = Some c →
  ∃ s', s' ≃ emit (EvRequest (request_of s v url d o)) s
        ∧ match T (sent s) (request_of s v url d o) with
          | Reply r => ∃ body, call T v url d o s = (Ok (envelope r body), s')
                               ∧ (∀ e s1, read_body r s = (Throw e, s1) → body = JsNull)
          | Fault e => call T v url d o s = (Throw e, s')
          end.
Proof.
  intros Hc.
  assert (∀ name, toUpperCase name = name →
            (name = "GET" ∧ v = GET) ∨ (name = "POST" ∧ v = POST)
            ∨ (name = "PUT" ∧ v = PUT) ∨ (name = "PATCH" ∧ v = PATCH)
            ∨ (name = "DELETE" ∧ v = DELETE) →
          ∃ s', s' ≃ emit (EvRequest (request_of s v url d o)) s
            ∧ match T (sent s) (request_of s v url d o) with
              | Reply r => ∃ body,
                  makeRequest T name url (call_options v d o) s = (Ok (envelope r body), s')
                  ∧ (∀ e s1, read_body r s = (Throw e, s1) → body = JsNull)
              | Fault e => makeRequest T name url (call_options v d o) s = (Throw e, s')
              end) as Hmk.
  { intros name Hup Hname.
    unfold makeRequest, bind, gets. rewrite Hc. unfold info.
    destruct (log_spec Logger.INFO ("Making " +:+ name +:+ " request to " +:+ url) s)
      as (s0 & -> & H0).
    rewrite Hup.
    assert ((if String.eqb name "GET" then send T GET (with_params url (call_options v d o))
                 (requestOptions (call_options v d o) (defaultHeaders s))
             else if String.eqb name "POST" then send T POST (with_params url (call_options v d o))
                 (requestOptions (call_options v d o) (defaultHeaders s))
             else if String.eqb name "PUT" then send T PUT (with_params url (call_options v d o))
                 (requestOptions (call_options v d o) (defaultHeaders s))
             else if String.eqb name "PATCH" then send T PATCH (with_params url (call_options v d o))
                 (requestOptions (call_options v d o) (defaultHeaders s))
             else if String.eqb name "DELETE" then send T DELETE (with_params url (call_options v d o))
                 (requestOptions (call_options v d o) (defaultHeaders s))
             else throw (Error ("Unsupported HTTP method: " +:+ name)))
            = send T v (with_params url (call_options v d o))
                (requestOptions (call_options v d o) (defaultHeaders s))) as ->.
    { destruct Hname as [[-> ->]|[[-> ->]|[[-> ->]|[[-> ->]|[-> ->]]]]]; reflexivity. }
    unfold send. rewrite (similar_sent _ _ H0).
    change {| req_verb := v; req_url := with_params url (call_options v d o);
              req_options := requestOptions (call_options v d o) (defaultHeaders s) |}
      with (request_of s v url d o).
    destruct (T (sent s) (request_of s v url d o)) as [r|e].
    - destruct (processResponse_spec r (emit (EvRequest (request_of s v url d o)) s0))
        as (body & s' & -> & Hs' & Hnull & _).
      exists s'. split.
      + eapply similar_trans; [exact Hs' | by apply similar_emit].
      + exists body. split; [done|].
        intros e s1 He. eapply (Hnull e).
        by rewrite (read_body_indep r s), He.
    - exists (emit (EvRequest (request_of s v url d o)) s0). split; [by apply similar_emit | done]. }
  destruct v; unfold call, get, post, put, patch, delete;
    (apply Hmk; [reflexivity | tauto]).
Qed.

Lemma call_without_context T v url d o s :
  context s = None → call T v url d o s = (Throw not_initialized, s).
Proof.
  intros Hc. destruct v; unfold call, get, post, put, patch, delete, makeRequest, bind, gets;
    rewrite Hc; reflexivity.
Qed.

(** ** Health checks *)

(** The state a health check leaves behind, up to console lines. *)
Definition checked (s : State) : State :=
  match context s with
  | None => s
  | Some _ => emit (EvRequest (health_request s)) s
  end.

Lemma healthCheck_spec T s :
  ∃ s', healthCheck T s = (Ok (check_result T s 0), s') ∧ s' ≃ checked s.
Proof.
  unfold healthCheck, try_catch, bind, check_result, checked.
  change (get T "/health" no_options) with (call T GET "/health" None no_options).
  destruct (context s) as [c|] eqn:Hc.
  - destruct (call_spec T GET "/health" None no_options s c Hc) as (s1 & Hs1 & Hcall).
    rewrite Nat.add_0_r. fold (health_request s) in *.
    destruct (T (sent s) (health_request s)) as [r|e].
    + destruct Hcall as (body & -> & _). exists s1. split; [reflexivity | done].
    + rewrite Hcall. unfold error.
      destruct (log_spec Logger.ERROR "Health check failed" s1) as (s2 & -> & Hs2).
      exists s2. split; [reflexivity|]. by eapply similar_trans.
  - rewrite (call_without_context T GET "/health" None no_options s Hc). unfold error.
    destruct (log_spec Logger.ERROR "Health check failed" s) as (s2 & -> & Hs2).
    exists s2. split; [reflexivity | done].
Qed.

Lemma similar_checked s s' : s ≃ s' → checked s ≃ checked s'.
Proof.
  intros Hs. pose proof Hs as (Hc & _ & Hh & _ & _).
  unfold checked, health_request, request_of. rewrite Hc, Hh.
  destruct (context s'); [by apply similar_emit | done].
Qed.

Lemma checked_context s : context (checked s) = context s.
Proof. unfold checked. by destruct (context s) eqn:E. Qed.

Lemma checked_defaultHeaders s : defaultHeaders (checked s) = defaultHeaders s.
Proof. unfold checked. by destruct (context s) eqn:E. Qed.

Lemma checked_effects s :
  effects (trace (checked s)) = effects (trace s) ++ check_events s.
Proof.
  unfold checked, check_events. destruct (context s).
  - apply effects_emit.
  - symmetry. apply app_nil_r.
Qed.

Lemma checked_sent s :
  sent (checked s) = (sent s + match context s with Some _ => 1 | None => 0 end)%nat.
Proof.
  unfold checked. destruct (context s).
  - rewrite sent_emit_request. lia.
  - lia.
Qed.

(** A state reached from [s] by one health check and, possibly, a delay. *)
Definition next_round (s s' : State) : Prop :=
  context s' = context s ∧ defaultHeaders s' = defaultHeaders s
  ∧ sent s' = (sent s + match context s with Some _ => 1 | None => 0 end)%nat.

Lemma next_round_check_result T s s' i :
  next_round s s' → check_result T s' i = check_result T s (S i).
Proof.
  intros (Hc & Hh & Hn). unfold check_result, health_request, request_of.
  rewrite Hc, Hh, Hn. destruct (context s); [|done].
  by replace (sent s + 1 + i)%nat with (sent s + S i)%nat by lia.
Qed.

Lemma next_round_polling s s' d k :
  next_round s s' → polling s' d k = polling s d k.
Proof.
  intros (Hc & Hh & _).
  assert (check_events s' = check_events s) as He.
  { unfold check_events, health_request, request_of. by rewrite Hc, Hh. }
  induction k as [|k IH]; simpl; by rewrite ?IH, He.
Qed.

Lemma next_round_similar s s1 : s1 ≃ checked s → next_round s s1.
Proof.
  intros Hs. pose proof (similar_sent _ _ Hs) as Hn.
  destruct Hs as (Hc & _ & Hh & _ & _).
  rewrite checked_context in Hc. rewrite checked_defaultHeaders in Hh.
  rewrite checked_sent in Hn. by repeat split.
Qed.

Lemma next_round_sleep s s1 d : next_round s s1 → next_round s (emit (EvSleep d) s1).
Proof.
  intros (Hc & Hh & Hn). repeat split; try done.
  rewrite <- Hn. unfold sent, requests. simpl. rewrite omap_app. simpl.
  by rewrite app_nil_r.
Qed.

(** One iteration of [waitLoop] whose health check fails. *)
Lemma waitLoop_failed_round T rem attempt n d s :
  check_result T s 0 = false →
  ∃ s1, waitLoop T (S rem) attempt n d s = waitLoop T rem (attempt + 1) n d s1
        ∧ next_round s s1
        ∧ effects (trace s1) = effects (trace s) ++ check_events s
                               ++ (if attempt <? n then [EvSleep d] else []).
Proof.
  intros Hfail. simpl. unfold bind at 1. unfold info at 1.
  destruct (log_spec Logger.INFO
    ("Checking API readiness (attempt " +:+ pretty attempt +:+ "/" +:+ pretty n +:+ ")") s)
    as (s0 & -> & Hs0).
  unfold bind at 1.
  destruct (healthCheck_spec T s0) as (s1 & Hhc & Hs1). rewrite Hhc.
  assert (check_result T s0 0 = check_result T s 0) as ->.
  { unfold check_result, health_request, request_of.
    rewrite (similar_sent _ _ Hs0). destruct Hs0 as (-> & _ & -> & _). done. }
  rewrite Hfail.
  assert (s1 ≃ checked s) as Hs1'.
  { eapply similar_trans; [exact Hs1 | by apply similar_checked]. }
  unfold bind at 1. destruct (attempt <? n).
  - unfold bind at 1. unfold info at 1.
    destruct (log_spec Logger.INFO ("API not ready, waiting " +:+ pretty d +:+ "ms...") s1)
      as (s2 & -> & Hs2).
    unfold sleep, modify. exists (emit (EvSleep d) s2).
    assert (s2 ≃ checked s) as Hs2' by (by eapply similar_trans).
    split; [done|]. split.
    + apply next_round_sleep. by apply next_round_similar.
    + rewrite effects_emit. simpl. destruct Hs2' as (_ & _ & _ & _ & ->).
      by rewrite checked_effects, <- app_assoc.
  - exists s1. split; [done|]. split.
    + by apply next_round_similar.
    + destruct Hs1' as (_ & _ & _ & _ & ->).
      by rewrite checked_effects, app_nil_r.
Qed.

(** Every remaining health check fails: the loop runs out and throws. *)
Lemma waitLoop_exhausted T d n rem : ∀ attempt s,
  attempt + Z.of_nat rem = n + 1 →
  (∀ i, (i < rem)%nat → check_result T s i = false) →
  ∃ s', waitLoop T rem attempt n d s = (Throw timed_out, s')
        ∧ effects (trace s')
          = effects (trace s) ++ match rem with O => [] | S k => polling s d k end.
Proof.
  induction rem as [|rem IH]; intros attempt s Hn Hfail.
  - exists s. split; [done|]. by rewrite app_nil_r.
  - destruct (waitLoop_failed_round T rem attempt n d s) as (s1 & -> & Hnext & Heff).
    { apply Hfail. lia. }
    destruct (IH (attempt + 1) s1) as (s' & -> & Heff'); [lia | |].
    { intros i Hi. rewrite (next_round_check_result T s s1 i Hnext). apply Hfail. lia. }
    exists s'. split; [done|]. rewrite Heff', Heff.
    destruct rem as [|k].
    + assert ((attempt <? n) = false) as -> by lia. simpl. by rewrite !app_nil_r.
    + assert ((attempt <? n) = true) as -> by lia.
      rewrite (next_round_polling s s1 d k Hnext). simpl.
      by rewrite <- !app_assoc.
Qed.

(** The health check after [k] failed ones succeeds: the loop returns. *)
Lemma waitLoop_ready T d n k : ∀ rem attempt s,
  (k < rem)%nat →
  attempt + Z.of_nat rem = n + 1 →
  (∀ i, (i < k)%nat → check_result T s i = false) →
  check_result T s k = true →
  ∃ s', waitLoop T rem attempt n d s = (Ok tt, s')
        ∧ effects (trace s') = effects (trace s) ++ polling s d k.
Proof.
  induction k as [|k IH]; intros rem attempt s Hk Hn Hfail Hok.
  - destruct rem as [|rem]; [lia|]. simpl. unfold bind at 1. unfold info at 1.
    destruct (log_spec Logger.INFO
      ("Checking API readiness (attempt " +:+ pretty attempt +:+ "/" +:+ pretty n +:+ ")") s)
      as (s0 & -> & Hs0).
    unfold bind at 1.
    destruct (healthCheck_spec T s0) as (s1 & Hhc & Hs1). rewrite Hhc.
    assert (check_result T s0 0 = check_result T s 0) as ->.
    { unfold check_result, health_request, request_of.
      rewrite (similar_sent _ _ Hs0). destruct Hs0 as (-> & _ & -> & _). done. }
    rewrite Hok.
    destruct (log_spec Logger.INFO "API is ready" s1) as (s2 & Hlog & Hs2).
    unfold info. rewrite Hlog. exists s2. split; [done|].
    assert (s2 ≃ checked s) as Hs2'.
    { eapply similar_trans; [exact Hs2|]. eapply similar_trans; [exact Hs1|].
      by apply similar_checked. }
    destruct Hs2' as (_ & _ & _ & _ & ->). apply checked_effects.
  - destruct rem as [|rem]; [lia|].
    destruct (waitLoop_failed_round T rem attempt n d s) as (s1 & -> & Hnext & Heff).
    { apply Hfail. lia. }
    destruct (IH rem (attempt + 1) s1) as (s' & -> & Heff'); [lia | lia | | |].
    { intros i Hi. rewrite (next_round_check_result T s s1 i Hnext). apply Hfail. lia. }
    { by rewrite (next_round_check_result T s s1 k Hnext). }
    exists s'. split; [done|]. rewrite Heff', Heff.
    assert ((attempt <? n) = true) as -> by lia.
    rewrite (next_round_polling s s1 d k Hnext). simpl.
    by rewrite <- !app_assoc.
Qed.

Lemma similar_requests s s' : s ≃ s' → requests (trace s) = requests (trace s').
Proof.
  intros (_ & _ & _ & _ & Ht).
  by rewrite <- (requests_effects (trace s)), Ht, requests_effects.
Qed.

(** A verb call on a client with a context hands exactly one request to the
    transport, whatever comes back. *)
Lemma call_requests T v url d o s c :
  context s = Some c →
  requests (trace (call T v url d o s).2)
  = requests (trace s) ++ [request_of s v url d o].
Proof.
  intros Hc. destruct (call_spec T v url d o s c Hc) as (s' & Hs' & Hcall).
  assert ((call T v url d o s).2 = s') as ->.
  { destruct (T (sent s) (request_of s v url d o)).
    - destruct Hcall as (body & -> & _). done.
    - by rewrite Hcall. }
  rewrite (similar_requests _ _ Hs'). unfold requests. simpl.
  by rewrite omap_app.
Qed.

Lemma polling_sleeps s d k : sleeps (polling s d k) = replicate k d.
Proof.
  assert (sleeps (check_events s) = []) as He.
  { unfold check_events. by destruct (context s). }
  induction k as [|k IH]; simpl; [done|].
  unfold sleeps in *. rewrite omap_app, He. simpl. f_equal. exact IH.
Qed.

Lemma polling_requests s d k c :
  context s = Some c → requests (polling s d k) = replicate (S k) (health_request s).
Proof.
  intros Hc. assert (check_events s = [EvRequest (health_request s)]) as He.
  { unfold check_events. by rewrite Hc. }
  induction k as [|k IH]; simpl; rewrite He; [done|].
  simpl. unfold requests in *. simpl. f_equal. exact IH.
Qed.

(** ** Sample clients and transports *)

Definition localhost : State := new None "http://localhost:3000" ∅.
Definition started : State := (init localhost).2.
Definition stopped : State := (dispose started).2.

Definition not_found : Response :=
  {| resp_status := 404;
     resp_headers := <["content-type" := "text/plain"]> ∅;
     resp_json := Throw (Error "Unexpected token N in JSON at position 0");
     resp_text := Ok "Not Found" |}.

Definition healthy : Response :=
  {| resp_status := 200;
     resp_headers := <["content-type" := "application/json"]> ∅;
     resp_json := Ok (JsObject [("status", JsString "up")]);
     resp_text := Ok "{status:up}" |}.

(** Answers every request with 404. *)
Definition missing : Transport := λ _ _, Reply not_found.

(** Refuses every connection. *)
Definition down : Transport := λ _ _, Fault (Error "connect ECONNREFUSED").

(** Refuses the first two connections and is healthy from then on. *)
Definition warming_up : Transport :=
  λ n _, if (n <? 2)%nat then Fault (Error "connect ECONNREFUSED") else Reply healthy.

(** ** The claims *)

(** C1: with no open context, that is before [init()] or after [dispose()],
    each of [get], [post], [put], [patch], [delete] and [uploadFile] throws
    the "API client not initialized" error and leaves the state, the trace of
    requests included, as it was: no request is made. *)
Theorem calls_without_context_fail (T : Transport) (s : State) :
  context s = None →
  (∀ url o, get T url o s = (Throw not_initialized, s))
  ∧ (∀ url d o, post T url d o s = (Throw not_initialized, s))
  ∧ (∀ url d o, put T url d o s = (Throw not_initialized, s))
  ∧ (∀ url d o, patch T url d o s = (Throw not_initialized, s))
  ∧ (∀ url o, delete T url o s = (Throw not_initialized, s))
  ∧ (∀ url file field extra,
       uploadFile T url file field extra s = (Throw not_initialized, s)).
Proof.
  intros Hc. repeat split; intros.
  - exact (call_without_context T GET url None o s Hc).
  - exact (call_without_context T POST url d o s Hc).
  - exact (call_without_context T PUT url d o s Hc).
  - exact (call_without_context T PATCH url d o s Hc).
  - exact (call_without_context T DELETE url None o s Hc).
  - unfold uploadFile, bind, gets. by rewrite Hc.
Qed.

(** A client that was never initialized and one that was disposed, against a
    transport that would answer. *)
Lemma calls_without_context_fail_witness :
  (context localhost = None
   ∧ get missing "/users" no_options localhost = (Throw not_initialized, localhost))
  ∧ (context stopped = None
     ∧ uploadFile missing "/upload" "a.png" "file" ∅ stopped
       = (Throw not_initialized, stopped)).
Proof.
  split.
  - split; [reflexivity|].
    apply (calls_without_context_fail missing localhost). reflexivity.
  - split; [reflexivity|].
    apply (calls_without_context_fail missing stopped). reflexivity.
Defined.

(** C2: on a client with an open context, a verb call that the transport
    answers with a response whose status is outside 200..299 does not throw;
    it returns an envelope with the status and the headers of the response
    and with [ok = false]. *)
Theorem non_2xx_reply_is_returned (T : Transport) (s : State) (c : Context)
    (r : Response) (v : Verb) (url : string) (d : option JsValue) (o : RequestOptions) :
  context s = Some c →
  T (sent s) (request_of s v url d o) = Reply r →
  ¬ (200 ≤ resp_status r ≤ 299) →
  ∃ env s', call T v url d o s = (Ok env, s')
            ∧ status env = resp_status r
            ∧ ok env = false
            ∧ response_headers env = resp_headers r.
Proof.
  intros Hc Hr Hst.
  destruct (call_spec T v url d o s c Hc) as (s' & _ & Hcall).
  rewrite Hr in Hcall. destruct Hcall as (body & -> & _).
  exists (envelope r body), s'. repeat split.
  simpl. unfold resp_ok. lia.
Qed.

Lemma non_2xx_reply_is_returned_witness :
  ∃ env s', call missing GET "/users/42" None no_options started = (Ok env, s')
            ∧ status env = 404
            ∧ ok env = false
            ∧ response_headers env = <["content-type" := "text/plain"]> ∅.
Proof.
  apply (non_2xx_reply_is_returned missing started
           {| ctx_baseURL := "http://localhost:3000";
              ctx_extraHTTPHeaders := defaultHeaders localhost |}
           not_found GET "/users/42" None no_options).
  - reflexivity.
  - reflexivity.
  - simpl. lia.
Defined.

(** C3: for [maxAttempts >= 1], [waitForApiReady maxAttempts delay] returns
    at the first health check that yields [true]: after [k] failed checks it
    has made [k + 1] checks with a delay of [delay] after each failed one and
    nothing after the successful one.  When all [maxAttempts] checks fail it
    throws the readiness error, having made [maxAttempts] checks with
    [maxAttempts - 1] delays between them.  What a check yields is
    [check_result]: the first conjunct says so for the check made at [s]. *)
Theorem waitForApiReady_polls (T : Transport) (s : State) (maxAttempts delay : Z) :
  1 ≤ maxAttempts →
  (∃ s', healthCheck T s = (Ok (check_result T s 0), s'))
  ∧ (∀ k, (k < Z.to_nat maxAttempts)%nat →
          (∀ i, (i < k)%nat → check_result T s i = false) →
          check_result T s k = true →
          ∃ s', waitForApiReady T maxAttempts delay s = (Ok tt, s')
                ∧ effects (trace s') = effects (trace s) ++ polling s delay k
                ∧ sleeps (polling s delay k) = replicate k delay
                ∧ requests (polling s delay k) = replicate (S k) (health_request s))
  ∧ ((∀ i, (i < Z.to_nat maxAttempts)%nat → check_result T s i = false) →
     ∃ s', waitForApiReady T maxAttempts delay s = (Throw timed_out, s')
           ∧ effects (trace s')
             = effects (trace s) ++ polling s delay (Z.to_nat maxAttempts - 1)
           ∧ sleeps (polling s delay (Z.to_nat maxAttempts - 1))
             = replicate (Z.to_nat maxAttempts - 1) delay
           ∧ (is_Some (context s) →
              requests (polling s delay (Z.to_nat maxAttempts - 1))
              = replicate (Z.to_nat maxAttempts) (health_request s))).
Proof.
  intros Hn. unfold waitForApiReady. split; [|split].
  - destruct (healthCheck_spec T s) as (s' & Hrun & _). by exists s'.
  - intros k Hk Hfail Hok.
    destruct (waitLoop_ready T delay maxAttempts k (Z.to_nat maxAttempts) 1 s)
      as (s' & Hrun & Heff); [done | lia | done | done |].
    exists s'. split; [done|]. split; [done|]. split; [apply polling_sleeps|].
    unfold check_result in Hok. destruct (context s) as [c|] eqn:Hc; [|done].
    by apply (polling_requests s delay k c).
  - intros Hfail.
    destruct (waitLoop_exhausted T delay maxAttempts (Z.to_nat maxAttempts) 1 s)
      as (s' & Hrun & Heff); [lia | done |].
    exists s'. split; [done|].
    destruct (Z.to_nat maxAttempts) as [|n] eqn:E; [lia|].
    rewrite Nat.sub_succ, Nat.sub_0_r.
    split; [done|]. split; [apply polling_sleeps|].
    intros [c Hc]. by apply (polling_requests s delay n c).
Qed.

(** Three attempts ten milliseconds apart: against a service that comes up
    for the third health check, and against one that never does. *)
Lemma waitForApiReady_polls_witness :
  (∃ s', waitForApiReady warming_up 3 10 started = (Ok tt, s')
         ∧ effects (trace s') = effects (trace started) ++ polling started 10 2
         ∧ sleeps (polling started 10 2) = [10; 10]
         ∧ requests (polling started 10 2) = replicate 3 (health_request started))
  ∧ (∃ s', waitForApiReady down 3 10 started = (Throw timed_out, s')
           ∧ effects (trace s') = effects (trace started) ++ polling started 10 2
           ∧ sleeps (polling started 10 2) = [10; 10]
           ∧ (is_Some (context started) →
              requests (polling started 10 2) = replicate 3 (health_request started))).
Proof.
  split.
  - destruct (waitForApiReady_polls warming_up started 3 10) as (_ & Hready & _); [lia|].
    apply (Hready 2%nat); [simpl; lia | | reflexivity].
    intros [|[|i]] Hi; [reflexivity | reflexivity | lia].
  - destruct (waitForApiReady_polls down started 3 10) as (_ & _ & Hfail); [lia|].
    apply Hfail. intros i _. reflexivity.
Defined.

(** C5: [healthCheck()] always returns a boolean.  Whatever the [get] of
    "/health" throws, a fault of the transport in particular, it returns
    [false]; when the [get] returns an envelope it returns the [ok] flag of
    that envelope. *)
Theorem healthCheck_never_throws (T : Transport) (s : State) :
  (∃ b s', healthCheck T s = (Ok b, s'))
  ∧ (∀ e s1, get T "/health" no_options s = (Throw e, s1) →
             ∃ s', healthCheck T s = (Ok false, s'))
  ∧ (∀ c e, context s = Some c → T (sent s) (health_request s) = Fault e →
            ∃ s', healthCheck T s = (Ok false, s'))
  ∧ (∀ env s1, get T "/health" no_options s = (Ok env, s1) →
               healthCheck T s = (Ok (ok env), s1)).
Proof.
  split; [|split; [|split]].
  - destruct (healthCheck_spec T s) as (s' & H & _). by eexists _, _.
  - intros e s1 Hget. unfold healthCheck, try_catch, bind. rewrite Hget. unfold error.
    destruct (log_spec Logger.ERROR "Health check failed" s1) as (s2 & -> & _).
    by exists s2.
  - intros c e Hc Hfault. destruct (healthCheck_spec T s) as (s' & H & _).
    exists s'. rewrite H. unfold check_result.
    by rewrite Hc, Nat.add_0_r, Hfault.
  - intros env s1 Hget. unfold healthCheck, try_catch, bind. by rewrite Hget.
Qed.

(** A started client whose service refuses the connection. *)
Lemma healthCheck_never_throws_witness :
  ∃ s', healthCheck down started = (Ok false, s').
Proof.
  destruct (healthCheck_never_throws down started) as (_ & _ & Hfault & _).
  apply (Hfault {| ctx_baseURL := "http://localhost:3000";
                   ctx_extraHTTPHeaders := defaultHeaders localhost |}
                (Error "connect ECONNREFUSED")); reflexivity.
Defined.

(** C6: [processResponse] returns an envelope for every response, with the
    status, the headers and the [ok] flag of the response; when reading or
    parsing the body throws, the body of the envelope is [null]. *)
Theorem processResponse_never_throws (r : Response) (s : State) :
  ∃ d s', processResponse r s
          = (Ok {| status := resp_status r; response_headers := resp_headers r;
                   response_data := d; ok := resp_ok r |}, s')
          ∧ (∀ e s1, read_body r s = (Throw e, s1) → d = JsNull).
Proof.
  destruct (processResponse_spec r s) as (d & s' & H & _ & Hnull & _).
  by exists d, s'.
Qed.

(** A body announced as JSON that does not parse. *)
Definition garbled : Response :=
  {| resp_status := 502;
     resp_headers := <["content-type" := "application/json"]> ∅;
     resp_json := Throw (Error "Unexpected token < in JSON at position 0");
     resp_text := Ok "<html>Bad Gateway</html>" |}.

Lemma processResponse_never_throws_witness :
  ∃ d s', processResponse garbled started
          = (Ok {| status := 502;
                   response_headers := <["content-type" := "application/json"]> ∅;
                   response_data := d; ok := false |}, s')
          ∧ (∀ e s1, read_body garbled started = (Throw e, s1) → d = JsNull).
Proof. apply (processResponse_never_throws garbled started). Defined.

(** C10: [setAuthToken] sets the 'Authorization' entry of the default headers
    to 'Bearer ' followed by the token and [clearAuthToken] removes that
    entry; the other entries, the base URL and the context stay as they were,
    and the headers of the request of a following verb call are the headers
    of the call over the new default headers. *)
Theorem auth_token_frame (T : Transport) (token : string) (s : State) :
  (∃ s1, setAuthToken token s = (Ok tt, s1)
         ∧ defaultHeaders s1 = <["Authorization" := "Bearer " +:+ token]> (defaultHeaders s)
         ∧ (∀ k, k ≠ "Authorization" → defaultHeaders s1 !! k = defaultHeaders s !! k)
         ∧ baseURL s1 = baseURL s
         ∧ context s1 = context s
         ∧ ∀ c v url d o, context s = Some c →
             ∃ q, requests (trace (call T v url d o s1).2) = requests (trace s) ++ [q]
                  ∧ request_headers q
                    = Some (match headers o with Some h => h | None => ∅ end
                            ∪ <["Authorization" := "Bearer " +:+ token]> (defaultHeaders s)))
  ∧ (∃ s2, clearAuthToken s = (Ok tt, s2)
           ∧ defaultHeaders s2 = base.delete "Authorization" (defaultHeaders s)
           ∧ (∀ k, k ≠ "Authorization" → defaultHeaders s2 !! k = defaultHeaders s !! k)
           ∧ baseURL s2 = baseURL s
           ∧ context s2 = context s
           ∧ ∀ c v url d o, context s = Some c →
               ∃ q, requests (trace (call T v url d o s2).2) = requests (trace s) ++ [q]
                    ∧ request_headers q
                      = Some (match headers o with Some h => h | None => ∅ end
                              ∪ base.delete "Authorization" (defaultHeaders s))).
Proof.
  assert (∀ h m, ∃ s1,
            (let* _ := modify (set_defaultHeaders h) in info m) s = (Ok tt, s1)
            ∧ defaultHeaders s1 = h ∧ baseURL s1 = baseURL s ∧ context s1 = context s
            ∧ ∀ c v url d o, context s = Some c →
                ∃ q, requests (trace (call T v url d o s1).2) = requests (trace s) ++ [q]
                     ∧ request_headers q
                       = Some (match headers o with Some h => h | None => ∅ end ∪ h)) as H.
  { intros h m. unfold bind, modify, info.
    destruct (log_spec Logger.INFO m (set_defaultHeaders h s)) as (s1 & -> & Hs1).
    pose proof (similar_requests _ _ Hs1) as Hreq.
    destruct Hs1 as (Hc & Hb & Hh & _ & _). simpl in *.
    exists s1. repeat split; try done.
    intros c v url d o Hcs.
    exists (request_of s1 v url d o). split.
    - rewrite (call_requests T v url d o s1 c) by congruence. by rewrite Hreq.
    - unfold request_headers, request_of, requestOptions. simpl. rewrite Hh.
      by destruct v. }
  split.
  - destruct (H (<["Authorization" := "Bearer " +:+ token]> (defaultHeaders s))
                "Authentication token set") as (s1 & Hrun & Hh & Hb & Hc & Hcall).
    exists s1. unfold setAuthToken, bind at 1, gets. rewrite Hrun.
    repeat split; try done.
    intros k Hk. rewrite Hh. by apply lookup_insert_ne.
  - destruct (H (base.delete "Authorization" (defaultHeaders s))
                "Authentication token cleared") as (s2 & Hrun & Hh & Hb & Hc & Hcall).
    exists s2. unfold clearAuthToken, bind at 1, gets. rewrite Hrun.
    repeat split; try done.
    intros k Hk. rewrite Hh. by apply lookup_delete_ne.
Qed.

(** A token set on a started client travels with the next [get]. *)
Lemma auth_token_frame_witness :
  ∃ s1, setAuthToken "t0k3n" started = (Ok tt, s1)
        ∧ defaultHeaders s1 !! "Authorization" = Some "Bearer t0k3n"
        ∧ defaultHeaders s1 !! "Accept" = Some "application/json"
        ∧ ∃ q, requests (trace (call missing GET "/me" None no_options s1).2) = [q]
               ∧ request_headers q
                 = Some (∅ ∪ <["Authorization" := "Bearer t0k3n"]> (defaultHeaders started)).
Proof.
  destruct (auth_token_frame missing "t0k3n" started)
    as ((s1 & Hrun & Hh & Hother & _ & _ & Hcall) & _).
  exists s1. split; [exact Hrun|]. split; [|split].
  - rewrite Hh. apply lookup_insert_eq.
  - rewrite Hother by discriminate. reflexivity.
  - apply (Hcall {| ctx_baseURL := "http://localhost:3000";
                    ctx_extraHTTPHeaders := defaultHeaders localhost |}
                 GET "/me" None no_options). reflexivity.
Defined.

End ApiClientProofs.

(** * Properties of the test data factory *)

Module TestDataFactoryProofs.

Import TestDataFactory.

(** ** Vocabulary of the statements *)

(** [m] returns from every state, with a value that satisfies [P]. *)
Definition returns {A} (m : M State A) (P : A → Prop) : Prop :=
  ∀ s, ∃ a s', m s = (Ok a, s') ∧ P a.

(** Whatever [m] returns satisfies [P]. *)
Definition ensures {A} (m : M State A) (P : A → Prop) : Prop :=
  ∀ s a s', m s = (Ok a, s') → P a.

(** The keys every user record has. *)
Definition base_keys : list string :=
  ["firstName"; "lastName"; "email"; "phone"; "password"; "userType"].

(** The keys a user type adds. *)
Definition type_keys (ty : UserType) : list string :=
  match ty with
  | fan => []
  | band => ["genre"; "bandMembers"]
  | solo_artist => ["genre"; "instruments"]
  end.

(** The calendar date at the head of [toISOString]'s text. *)
Definition iso_date (t : Z) : string := before_first "T" (iso_string t).

(** The calendar date of day number [D], as [toISOString] writes it. *)
Definition date_text (D : Z) : string :=
  iso_year (civil D).1.1 +:+ "-" +:+ pad 2 (civil D).1.2 +:+ "-" +:+ pad 2 (civil D).2.

(** [d] names a day 1 to 30 days after the day of the instant [now]. *)
Definition days_ahead_of (now : Z) (d : string) : Prop :=
  ∃ D, Day now + 1 ≤ D ≤ Day now + 30 ∧ d = date_text D.

(** The instant [generateEvent] moves a date created at [now] to when it
    adds [k] to the day of the month: the local time of day is kept, [k]
    local calendar days later. *)
Definition shifted (E : Engine) (now k : Z) : Z :=
  UTC E (LocalTime E now + k * msPerDay).

(** An event record as [generateEvent] builds it. *)
Definition event_of (E : Engine) (ev : EventData) : Prop :=
  20 ≤ ticketPrice ev ≤ 119
  ∧ 50 ≤ capacity ev ≤ 549
  ∧ length (event_genre ev) = 1%nat
  ∧ ∃ now k, - maxTime ≤ now ≤ maxTime ∧ 1 ≤ k ≤ 30
             ∧ date ev = iso_date (shifted E now k).

(** [l] holds the first [n] entries of some rearrangement of [vocabulary]. *)
Definition drawn_from (vocabulary : list string) (n : nat) (l : list string) : Prop :=
  ∃ sh, sh ≡ₚ vocabulary ∧ l = take n sh.

(** A roster as [generateBandMembers] builds it. *)
Definition roster (ms : list BandMember) : Prop :=
  (2 ≤ length ms ≤ 5)%nat
  ∧ drawn_from instrumentNames (length ms) (instrument <$> ms).

(** A user record as [generateUser] builds it for the type [ty]. *)
Definition user_of_type (ty : UserType) (u : UserData) : Prop :=
  userType u = ty
  ∧ match ty with
    | fan => genre u = None ∧ instruments u = None ∧ bandMembers u = None
    | band =>
        (∃ g, genre u = Some g ∧ drawn_from genres 2 g)
        ∧ instruments u = None
        ∧ (∃ ms, bandMembers u = Some ms ∧ roster ms)
    | solo_artist =>
        (∃ g, genre u = Some g ∧ drawn_from genres 1 g)
        ∧ (∃ i, instruments u = Some i ∧ drawn_from instrumentNames 2 i)
        ∧ bandMembers u = None
    end.

(** ** Rules for [returns] and [ensures] *)

Lemma returns_ret {A} (a : A) (P : A → Prop) : P a → returns (ret a) P.
Proof. intros Ha s. by exists a, s. Qed.

Lemma returns_bind {A B} (m : M State A) (k : A → M State B) P Q :
  returns m P → (∀ a, P a → returns (k a) Q) → returns (bind m k) Q.
Proof.
  intros Hm Hk s. unfold bind.
  destruct (Hm s) as (a & s1 & -> & Ha). exact (Hk a Ha s1).
Qed.

Lemma returns_weaken {A} (m : M State A) (P Q : A → Prop) :
  returns m P → (∀ a, P a → Q a) → returns m Q.
Proof.
  intros Hm HPQ s. destruct (Hm s) as (a & s1 & Hrun & Ha).
  exists a, s1. auto.
Qed.

Lemma returns_ensures {A} (m : M State A) (P : A → Prop) : returns m P → ensures m P.
Proof.
  intros Hm s a s' Hrun. destruct (Hm s) as (a0 & s0 & Hrun0 & Ha).
  congruence.
Qed.

Lemma ensures_ret {A} (a : A) (P : A → Prop) : P a → ensures (ret a) P.
Proof. intros Ha s a' s' [= <- _]. exact Ha. Qed.

Lemma ensures_bind {A B} (m : M State A) (k : A → M State B) P Q :
  ensures m P → (∀ a, P a → ensures (k a) Q) → ensures (bind m k) Q.
Proof.
  intros Hm Hk s b s'. unfold bind.
  destruct (m s) as [[a|e] s1] eqn:Hrun; [|done].
  intros Hb. exact (Hk a (Hm s a s1 Hrun) s1 b s' Hb).
Qed.

(** ** The random source and the helpers *)

Section WithEngine.

Variable E : Engine.

Lemma Math_random_spec : returns (Math_random E) (λ r, 0 ≤ r < unit).
Proof.
  intros s. eexists _, _. split; [reflexivity|]. apply random_range.
Qed.

Lemma Date_now_spec : returns (Date_now E) (λ now, - maxTime ≤ now ≤ maxTime).
Proof.
  intros s. eexists _, _. split; [reflexivity|]. apply clock_range.
Qed.

Lemma Date_new_spec :
  returns (Date_new E) (λ tv, ∃ now, - maxTime ≤ now ≤ maxTime ∧ tv = Some now).
Proof.
  intros s. eexists _, _. split; [reflexivity|].
  exists (clock E (reads s)). pose proof (clock_range E (reads s)) as Hr.
  split; [done|]. unfold TimeClip.
  by assert ((Z.abs (clock E (reads s)) <=? maxTime) = true) as -> by lia.
Qed.

Lemma floor_scaled_range r n : 0 ≤ r < unit → 0 < n → 0 ≤ floor (r * n) < n.
Proof.
  unfold floor, unit. intros Hr Hn. split.
  - apply Z.div_pos; lia.
  - apply Z.div_lt_upper_bound; nia.
Qed.

Lemma random_below_range n : 0 < n → returns (random_below E n) (λ i, 0 ≤ i < n).
Proof.
  intros Hn. unfold random_below.
  eapply returns_bind; [apply Math_random_spec|].
  intros r Hr. apply returns_ret. by apply floor_scaled_range.
Qed.

Lemma index_elem_of xs i : 0 ≤ i < Z.of_nat (length xs) → index xs i ∈ xs.
Proof.
  intros Hi. unfold index. assert ((i <? 0) = false) as -> by lia.
  destruct (lookup_lt_is_Some_2 xs (Z.to_nat i)) as [x Hx]; [lia|].
  rewrite Hx. eapply list_elem_of_lookup_2. exact Hx.
Qed.

Lemma pick_spec xs : xs ≠ [] → returns (pick E xs) (λ x, x ∈ xs).
Proof.
  intros Hxs. unfold pick.
  eapply returns_bind; [apply random_below_range|].
  - destruct xs; [done | simpl; lia].
  - intros i Hi. apply returns_ret. by apply index_elem_of.
Qed.

Lemma shuffled_spec xs : returns (shuffled E xs) (λ l, l ≡ₚ xs).
Proof.
  intros s. unfold shuffled. apply sort_permutes.
  intros _ _ s0. eexists _, _. reflexivity.
Qed.

Lemma slice0_take {A} (xs : list A) count :
  0 ≤ count → slice0 xs count = take (Z.to_nat count) xs.
Proof. intros Hc. unfold slice0. by assert ((0 <=? count) = true) as -> by lia. Qed.

Lemma getRandomGenres_spec count :
  0 ≤ count → returns (getRandomGenres E count) (drawn_from genres (Z.to_nat count)).
Proof.
  intros Hc. unfold getRandomGenres.
  eapply returns_bind; [apply shuffled_spec|].
  intros sh Hsh. apply returns_ret. exists sh. split; [done|]. by apply slice0_take.
Qed.

Lemma getRandomInstruments_spec count :
  0 ≤ count →
  returns (getRandomInstruments E count) (drawn_from instrumentNames (Z.to_nat count)).
Proof.
  intros Hc. unfold getRandomInstruments.
  eapply returns_bind; [apply shuffled_spec|].
  intros sh Hsh. apply returns_ret. exists sh. split; [done|]. by apply slice0_take.
Qed.

Lemma drawn_from_length vocabulary n l :
  drawn_from vocabulary n l → (n ≤ length vocabulary)%nat → length l = n.
Proof.
  intros (sh & Hsh & ->) Hn. rewrite length_take, Hsh. lia.
Qed.

Lemma drawn_from_elem_of vocabulary n l x :
  drawn_from vocabulary n l → x ∈ l → x ∈ vocabulary.
Proof.
  intros (sh & Hsh & ->) Hx. rewrite <- Hsh.
  apply elem_of_take in Hx as (i & Hi & _). by eapply list_elem_of_lookup_2.
Qed.

Lemma drawn_from_NoDup vocabulary n l :
  drawn_from vocabulary n l → NoDup vocabulary → NoDup l.
Proof.
  intros (sh & Hsh & ->) Hnd. eapply sublist_NoDup; [|apply sublist_take].
  by rewrite Hsh.
Qed.

Lemma index_seq (l : list string) :
  (λ j, index l (Z.of_nat j)) <$> seq 0 (length l) = l.
Proof.
  apply list_eq. intros i. rewrite list_lookup_fmap.
  destruct (l !! i) as [x|] eqn:Hx.
  - rewrite lookup_seq_lt by (by eapply lookup_lt_Some). simpl.
    unfold index. assert ((Z.of_nat i <? 0) = false) as -> by (apply Z.ltb_ge; lia).
    by rewrite Nat2Z.id, Hx.
  - rewrite lookup_seq_ge; [done|]. by apply lookup_ge_None.
Qed.

(** The loop appends one member per iteration, the [j]-th of them with
    instrument [instrs[i + j]]. *)
Lemma bandMembers_loop_spec instrs rem : ∀ i acc,
  returns (bandMembers_loop E rem i instrs acc)
    (λ ms, ∃ new, ms = acc ++ new
                  ∧ instrument <$> new
                    = (λ j, index instrs (i + Z.of_nat j)) <$> seq 0 rem).
Proof.
  induction rem as [|rem IH]; intros i acc; simpl.
  - apply returns_ret. exists []. by rewrite app_nil_r.
  - eapply returns_bind; [apply (pick_spec firstNames); done|]. intros f _.
    eapply returns_bind; [apply (pick_spec lastNames); done|]. intros l _.
    eapply returns_weaken; [apply IH|].
    intros ms (new & -> & Hnew). eexists (_ :: new).
    split; [by rewrite <- app_assoc|].
    change (seq 0 (S rem)) with (0%nat :: seq 1 rem).
    rewrite !fmap_cons, Hnew, Z.add_0_r. f_equal.
    rewrite <- fmap_S_seq, <- list_fmap_compose.
    apply list_fmap_ext. intros _ j _. simpl. f_equal. lia.
Qed.

Lemma generateBandMembers_spec : returns (generateBandMembers E) roster.
Proof.
  unfold generateBandMembers.
  eapply returns_bind; [apply (random_below_range 4); lia|]. intros n Hn. simpl in Hn.
  eapply returns_bind; [apply getRandomInstruments_spec; lia|]. intros instrs Hinstrs.
  eapply returns_weaken; [apply bandMembers_loop_spec|].
  intros ms (new & -> & Hnew). simpl.
  pose proof (drawn_from_length _ _ _ Hinstrs) as Hlen.
  assert (length instrs = Z.to_nat (n + 2)) as Hlen' by (apply Hlen; simpl; lia).
  rewrite <- Hlen' in Hnew.
  assert (instrument <$> new = instrs) as Hall.
  { rewrite Hnew. etrans; [|apply (index_seq instrs)].
    apply list_fmap_ext. intros _ j _. simpl. f_equal. }
  assert (length new = Z.to_nat (n + 2)) as Hnew_len.
  { by rewrite <- (length_fmap instrument), Hall. }
  split; [lia|]. by rewrite Hall, Hnew_len.
Qed.

Lemma generatePhoneNumber_spec : returns (generatePhoneNumber E) (λ _, True).
Proof.
  unfold generatePhoneNumber.
  eapply returns_bind; [apply (random_below_range 900); lia|]. intros a _.
  eapply returns_bind; [apply (random_below_range 900); lia|]. intros b _.
  eapply returns_bind; [apply (random_below_range 9000); lia|]. intros c _.
  by apply returns_ret.
Qed.

Lemma generateUser_spec ty : returns (generateUser E ty) (user_of_type ty).
Proof.
  unfold generateUser.
  eapply returns_bind; [apply (pick_spec firstNames); done|]. intros f _.
  eapply returns_bind; [apply (pick_spec lastNames); done|]. intros l _.
  eapply returns_bind; [apply Date_now_spec|]. intros now _.
  eapply returns_bind; [apply generatePhoneNumber_spec|]. intros ph _.
  destruct ty.
  - apply returns_ret. by repeat split.
  - eapply returns_bind; [apply (getRandomGenres_spec 2); lia|]. intros g Hg.
    eapply returns_bind; [apply generateBandMembers_spec|]. intros ms Hms.
    apply returns_ret. split; [done|]. split; [by exists g|]. split; [done|].
    by exists ms.
  - eapply returns_bind; [apply (getRandomGenres_spec 1); lia|]. intros g Hg.
    eapply returns_bind; [apply (getRandomInstruments_spec 2); lia|]. intros i Hi.
    apply returns_ret. split; [done|]. split; [by exists g|]. split; [by exists i|].
    done.
Qed.

(** The loop appends one user per iteration, the [j]-th of them of the type
    at position [(i + j) mod 3] of [userTypes]. *)
Lemma generateUsers_loop_spec rem : ∀ i acc,
  returns (generateUsers_loop E rem (Z.of_nat i) acc)
    (λ us, ∃ new, us = acc ++ new
                  ∧ length new = rem
                  ∧ ∀ j u, new !! j = Some u →
                           userTypes !! ((i + j) mod 3)%nat = Some (userType u)).
Proof.
  induction rem as [|rem IH]; intros i acc; cbn [generateUsers_loop].
  - apply returns_ret. exists []. rewrite app_nil_r. by repeat split.
  - eapply returns_bind; [apply generateUser_spec|]. intros u [Hu _].
    replace (Z.of_nat i + 1) with (Z.of_nat (S i)) by lia.
    eapply returns_weaken; [apply IH|].
    intros us (new & -> & Hlen & Hty). exists (u :: new).
    split; [by rewrite <- app_assoc|]. split; [simpl; lia|].
    intros [|j] u' Hj.
    + injection Hj as <-. rewrite Hu, Nat.add_0_r.
      change (length userTypes) with 3%nat.
      rewrite <- Nat2Z.inj_mod, Nat2Z.id.
      pose proof (Nat.mod_upper_bound i 3) as Hlt.
      destruct (i mod 3)%nat as [|[|[|k]]]; [reflexivity..|lia].
    + replace (i + S j)%nat with (S i + j)%nat by lia. by apply Hty.
Qed.

(** ** Events *)

Lemma setDate_shifts now k :
  setDate E (Some now) (Some (DateFromTime (LocalTime E now) + k))
  = TimeClip (shifted E now k).
Proof.
  unfold setDate, shifted. f_equal. f_equal.
  unfold Day, TimeWithinDay.
  pose proof (Z.div_mod (LocalTime E now) msPerDay) as Hdm.
  unfold msPerDay in *. lia.
Qed.

(** When the offset of the time zone is the same at the call and at the
    local time the date is moved to, the date moves by [k] whole days. *)
Lemma shifted_stable_offset now k :
  LocalTZA E (LocalTime E now + k * msPerDay) false = LocalTZA E now true →
  shifted E now k = now + k * msPerDay ∧ Day (shifted E now k) = Day now + k.
Proof.
  intros Hoff. unfold shifted, UTC. rewrite Hoff. unfold LocalTime.
  split; [lia|]. unfold Day.
  replace (now + LocalTZA E now true + k * msPerDay - LocalTZA E now true)
    with (now + k * msPerDay) by lia.
  by apply Z.div_add.
Qed.

Lemma toISOString_spec tv :
  ensures (toISOString tv) (λ iso, ∃ t, tv = Some t ∧ iso = iso_string t).
Proof.
  intros s iso s'. destruct tv as [t|]; unfold toISOString, ret, throw;
    [|discriminate].
  intros H. injection H as <- _. exists t. split; reflexivity.
Qed.

Lemma days_ahead_spec : returns (days_ahead E) (λ k, 1 ≤ k ≤ 30).
Proof.
  unfold days_ahead.
  eapply returns_bind; [apply (random_below_range 30); lia|]. intros k Hk.
  apply returns_ret. simpl in Hk. lia.
Qed.

Lemma getRandomTime_spec : returns (getRandomTime E) (λ _, True).
Proof.
  unfold getRandomTime.
  eapply returns_bind; [apply (random_below_range 12); lia|]. intros h _.
  eapply returns_bind; [apply Math_random_spec|]. intros r _.
  by apply returns_ret.
Qed.

Lemma getRandomAddress_spec : returns (getRandomAddress E) (λ _, True).
Proof.
  unfold getRandomAddress.
  eapply returns_bind; [apply (random_below_range 9999); lia|]. intros n _.
  eapply returns_bind; [apply (pick_spec streetNames); done|]. intros x _.
  by apply returns_ret.
Qed.

Lemma generateZipCode_spec : returns (generateZipCode E) (λ _, True).
Proof.
  unfold generateZipCode.
  eapply returns_bind; [apply Math_random_spec|]. intros r _.
  by apply returns_ret.
Qed.

Lemma generateEvent_spec : ensures (generateEvent E) (event_of E).
Proof.
  unfold generateEvent.
  eapply ensures_bind; [apply returns_ensures, (getRandomGenres_spec 1); lia|].
  intros gs Hgs.
  eapply ensures_bind; [apply returns_ensures, Date_new_spec|].
  intros tv (now & Hnow & ->).
  eapply ensures_bind; [apply returns_ensures, days_ahead_spec|].
  intros k Hk. cbn [getDate]. rewrite setDate_shifts.
  eapply ensures_bind; [apply returns_ensures, (pick_spec eventTitles); done|].
  intros t _.
  eapply ensures_bind; [apply returns_ensures, (pick_spec eventDescriptions); done|].
  intros descr _.
  eapply ensures_bind; [apply toISOString_spec|].
  intros iso (u & Hu & ->).
  eapply ensures_bind; [apply returns_ensures, getRandomTime_spec|]. intros tm _.
  eapply ensures_bind; [apply returns_ensures, (pick_spec venues); done|]. intros v _.
  eapply ensures_bind; [apply returns_ensures, getRandomAddress_spec|]. intros a _.
  eapply ensures_bind; [apply returns_ensures, (pick_spec cities); done|]. intros c _.
  eapply ensures_bind; [apply returns_ensures, (pick_spec states); done|]. intros st _.
  eapply ensures_bind; [apply returns_ensures, generateZipCode_spec|]. intros z _.
  eapply ensures_bind; [apply returns_ensures, (random_below_range 100); lia|].
  intros p Hp.
  eapply ensures_bind; [apply returns_ensures, (random_below_range 500); lia|].
  intros cap Hcap.
  apply ensures_ret. simpl in Hp, Hcap. unfold event_of.
  cbn [ticketPrice capacity event_genre date].
  split; [lia|]. split; [lia|]. split.
  - apply (drawn_from_length genres _ _ Hgs). simpl. lia.
  - exists now, k. split; [exact Hnow|]. split; [exact Hk|].
    unfold TimeClip in Hu. destruct (Z.abs _ <=? maxTime); [|discriminate].
    injection Hu as <-. unfold iso_date. reflexivity.
Qed.

End WithEngine.

(** ** The date of an event *)

(** [c] does not occur in [s]. *)
Fixpoint lacks (c : ascii) (s : string) : bool :=
  match s with
  | EmptyString => true
  | String a r => negb (Ascii.eqb a c) && lacks c r
  end.

Lemma append_cons a s t : String a s +:+ t = String a (s +:+ t).
Proof. reflexivity. Qed.

Lemma append_nil_r s : s +:+ EmptyString = s.
Proof. induction s as [|a s IH]; [done|]. by rewrite append_cons, IH. Qed.

Lemma lacks_app c s1 s2 :
  lacks c s1 = true → lacks c s2 = true → lacks c (s1 +:+ s2) = true.
Proof.
  intros H1 H2. induction s1 as [|a s1 IH]; [done|].
  rewrite append_cons. simpl in *.
  apply andb_true_iff in H1 as [-> H1]. by rewrite IH.
Qed.

Lemma before_first_skip c s1 s2 :
  lacks c s1 = true → before_first c (s1 +:+ s2) = s1 +:+ before_first c s2.
Proof.
  intros H1. induction s1 as [|a s1 IH]; [done|].
  rewrite !append_cons. simpl in *.
  apply andb_true_iff in H1 as [Ha H1].
  destruct (Ascii.eqb a c); [done|]. by rewrite IH.
Qed.

Lemma pretty_N_go_lacks_T x s :
  lacks "T" s = true → lacks "T" (pretty_N_go x s) = true.
Proof.
  revert s. induction (N.lt_wf_0 x) as [x _ IH]; intros s Hs.
  assert (x = 0 ∨ 0 < x)%N as [->|Hx] by lia.
  - by rewrite pretty_N_go_0.
  - rewrite pretty_N_go_step by done. apply IH; [by apply N.div_lt|].
    simpl. rewrite Hs. unfold pretty_N_char. by repeat case_match.
Qed.

Lemma pretty_Z_lacks_T (n : Z) : lacks "T" (pretty n) = true.
Proof.
  assert (∀ p : positive, lacks "T" (pretty p) = true) as Hpos.
  { intros p. unfold pretty, pretty_positive, pretty, pretty_N.
    case_decide; [done|]. by apply pretty_N_go_lacks_T. }
  destruct n as [|p|p]; unfold pretty, pretty_Z; [done | apply Hpos |].
  apply lacks_app; [done | apply Hpos].
Qed.

Lemma pad_lacks_T w n : lacks "T" (pad w n) = true.
Proof.
  unfold pad. apply lacks_app; [|apply pretty_Z_lacks_T].
  induction (w - String.length (pretty n))%nat; simpl; done.
Qed.

Lemma iso_year_lacks_T y : lacks "T" (iso_year y) = true.
Proof.
  unfold iso_year. destruct (_ && _); [apply pad_lacks_T|].
  apply lacks_app; [by destruct (0 <=? y) | apply pad_lacks_T].
Qed.

(** The date [generateEvent] cuts out of [toISOString]'s text is the
    calendar date of the day the instant lies in, universal time. *)
Lemma iso_date_day t : iso_date t = date_text (Day t).
Proof.
  unfold iso_date, iso_string, date_text, YearFromTime, MonthFromTime, DateFromTime.
  rewrite before_first_skip by apply iso_year_lacks_T.
  rewrite (before_first_skip _ "-") by done.
  rewrite before_first_skip by apply pad_lacks_T.
  rewrite (before_first_skip _ "-") by done.
  rewrite before_first_skip by apply pad_lacks_T.
  change (before_first "T" ("T" +:+ ?r)) with EmptyString.
  by rewrite append_nil_r.
Qed.

(** [generateEvent], in a time zone whose offset is the same at the call as
    at any local time: the date is the calendar date, universal time, 1 to 30
    days after the day of the call. *)
Lemma generateEvent_fixed_offset (E : Engine) (offset : Z) s ev s' :
  (∀ t isUTC, LocalTZA E t isUTC = offset) →
  generateEvent E s = (Ok ev, s') →
  ∃ now, - maxTime ≤ now ≤ maxTime ∧ days_ahead_of now (date ev).
Proof.
  intros Hzone Hrun.
  destruct (generateEvent_spec E s ev s' Hrun)
    as (_ & _ & _ & now & k & Hnow & Hk & Hdate).
  exists now. split; [done|]. exists (Day now + k). split; [lia|].
  rewrite Hdate, iso_date_day. f_equal.
  apply shifted_stable_offset. by rewrite !Hzone.
Qed.

(** ** Sample platforms *)

Definition fresh : State := {| draws := 0; reads := 0 |}.

(** Noon of 2024-02-29, universal time. *)
Definition leap_day_utc : Engine :=
  Engines.engine
    [123456789012345; 8007199254740991; 4503599627370497; 1;
     9007199254740991; 3003599627370497]
    1709208000000 Engines.utc_zone.

(** Half past midnight of 2024-03-31, universal time, on a machine set to
    central European time: 01:30 on the last night of winter time.  The random
    source yields 0 throughout. *)
Definition last_winter_night : Engine :=
  Engines.engine [0] 1711845000000 Engines.cet_2024.

(** The instant the clock of [last_winter_night] shows. *)
Definition call_time : Z := 1711845000000.

(** The record [generateEvent] returns on [last_winter_night]. *)
Definition dated_today : EventData :=
  {| title := "Summer Music Festival Concert";
     description := "Join us for an unforgettable night of live music and entertainment.";
     date := "2024-03-31";
     time := "7:30 PM";
     venue := "The Music Hall";
     address := "1 Main St";
     city := "Austin";
     state := "TX";
     zipCode := "10000";
     ticketPrice := 20;
     capacity := 50;
     event_genre := ["Metal"] |}.

Lemma generateEvent_last_winter_night :
  generateEvent last_winter_night fresh = (Ok dated_today, {| draws := 104; reads := 1 |}).
Proof. vm_compute. reflexivity. Qed.

Lemma no_day_ahead_is_today :
  Forall (λ j, date_text (19814 + Z.of_nat j) ≠ "2024-03-31") (seq 0 30).
Proof. apply (bool_decide_unpack _). vm_compute. exact I. Qed.

(** ** The claims *)

(** C4: for each user type, [generateUser] returns a record of that type
    whose keys are the six base keys followed by [genre] and [bandMembers]
    for a band, by [genre] and [instruments] for a solo artist, and by
    nothing for a fan. *)
Theorem generateUser_fields (E : Engine) (ty : UserType) (s : State) :
  ∃ u s', generateUser E ty s = (Ok u, s')
          ∧ userType u = ty
          ∧ keys u = base_keys ++ type_keys ty
          ∧ match ty with
            | fan => genre u = None ∧ bandMembers u = None ∧ instruments u = None
            | band => is_Some (genre u) ∧ is_Some (bandMembers u) ∧ instruments u = None
            | solo_artist =>
                is_Some (genre u) ∧ is_Some (instruments u) ∧ bandMembers u = None
            end.
Proof.
  destruct (generateUser_spec E ty s) as (u & s' & Hrun & Hty & Hu).
  exists u, s'. split; [done|]. split; [done|]. unfold keys.
  destruct ty.
  - destruct Hu as (-> & -> & ->). by repeat split.
  - destruct Hu as ((g & -> & _) & -> & (ms & -> & _)). by repeat split.
  - destruct Hu as ((g & -> & _) & (i & -> & _) & ->). by repeat split.
Qed.

Lemma generateUser_fields_witness :
  ∃ u s', generateUser leap_day_utc solo_artist fresh = (Ok u, s')
          ∧ userType u = solo_artist
          ∧ keys u = base_keys ++ ["genre"; "instruments"]
          ∧ is_Some (genre u) ∧ is_Some (instruments u) ∧ bandMembers u = None.
Proof. apply (generateUser_fields leap_day_utc solo_artist fresh). Defined.

(** C7: for a count [n >= 0], [generateUsers n] returns [n] records, and the
    record at index [i] has the user type at position [i mod 3] of
    ['fan', 'band', 'solo_artist']. *)
Theorem generateUsers_round_robin (E : Engine) (n : Z) (s : State) :
  0 ≤ n →
  ∃ us s', generateUsers E n s = (Ok us, s')
           ∧ Z.of_nat (length us) = n
           ∧ ∀ i u, us !! i = Some u →
                    [fan; band; solo_artist] !! (i mod 3)%nat = Some (userType u).
Proof.
  intros Hn. unfold generateUsers.
  destruct (generateUsers_loop_spec E (Z.to_nat n) 0 [] s)
    as (us & s' & Hrun & new & -> & Hlen & Hty).
  exists new, s'. split; [exact Hrun|]. split; [lia|]. exact Hty.
Qed.

Lemma generateUsers_round_robin_witness :
  ∃ us s', generateUsers leap_day_utc 4 fresh = (Ok us, s')
           ∧ Z.of_nat (length us) = 4
           ∧ ∀ i u, us !! i = Some u →
                    [fan; band; solo_artist] !! (i mod 3)%nat = Some (userType u).
Proof. apply (generateUsers_round_robin leap_day_utc 4 fresh). lia. Defined.

(** C8: the band members of a band user are 2 to 5, each with an instrument
    of the instrument vocabulary, no instrument twice. *)
Theorem band_roster (E : Engine) (s : State) :
  ∃ u ms s', generateUser E band s = (Ok u, s')
             ∧ bandMembers u = Some ms
             ∧ (2 ≤ length ms ≤ 5)%nat
             ∧ (∀ m, m ∈ ms → instrument m ∈ instrumentNames)
             ∧ NoDup (instrument <$> ms).
Proof.
  destruct (generateUser_spec E band s)
    as (u & s' & Hrun & _ & _ & _ & ms & Hms & Hlen & Hdrawn).
  exists u, ms, s'. split; [done|]. split; [done|]. split; [done|]. split.
  - intros m Hm. eapply drawn_from_elem_of; [exact Hdrawn|].
    by apply list_elem_of_fmap_2.
  - eapply drawn_from_NoDup; [exact Hdrawn|].
    apply (bool_decide_unpack _). by vm_compute.
Qed.

Lemma band_roster_witness :
  ∃ u ms s', generateUser leap_day_utc band fresh = (Ok u, s')
             ∧ bandMembers u = Some ms
             ∧ (2 ≤ length ms ≤ 5)%nat
             ∧ (∀ m, m ∈ ms → instrument m ∈ instrumentNames)
             ∧ NoDup (instrument <$> ms).
Proof. apply (band_roster leap_day_utc fresh). Defined.

(** C9, at the input where it fails.  The clock shows 2024-03-31 00:30 in
    universal time, 01:30 in the central European zone of the machine, and
    the random source makes [generateEvent] add one day.  The date moves to
    01:30 of 2024-04-01 in local time; summer time has begun by then, the
    instant is 2024-03-31 23:30 in universal time, and the record is dated
    2024-03-31: the day of the call in universal and in local time, not a day
    1 to 30 days after it.  Price, capacity and genre are as claimed. *)
Theorem generateEvent_dated_today :
  clock last_winter_night 0 = call_time
  ∧ date_text (Day call_time) = "2024-03-31"
  ∧ date_text (Day (LocalTime last_winter_night call_time)) = "2024-03-31"
  ∧ ∃ ev s', generateEvent last_winter_night fresh = (Ok ev, s')
             ∧ date ev = "2024-03-31"
             ∧ ¬ days_ahead_of call_time (date ev)
             ∧ 20 ≤ ticketPrice ev ≤ 119
             ∧ 50 ≤ capacity ev ≤ 549
             ∧ length (event_genre ev) = 1%nat.
Proof.
  split; [reflexivity|].
  split; [vm_compute; reflexivity|].
  split; [vm_compute; reflexivity|].
  exists dated_today, {| draws := 104; reads := 1 |}.
  split; [exact generateEvent_last_winter_night|].
  split; [reflexivity|].
  split; [|unfold dated_today; simpl; lia].
  change (date dated_today) with "2024-03-31".
  intros (D & HD & Heq).
  change (Day call_time) with 19813 in HD.
  pose proof no_day_ahead_is_today as Hall. rewrite Forall_forall in Hall.
  apply (Hall (Z.to_nat (D - 19814))).
  - apply elem_of_seq. lia.
  - rewrite Z2Nat.id by lia. rewrite Heq. f_equal. lia.
Qed.

End TestDataFactoryProofs.

(** * More of the API client *)

Module ApiClientExtras.

Import ApiClient ApiClientProofs.

(** ** Vocabulary of the statements *)

(** The body [processResponse] decodes: the reader is picked by the content
    type, a reader that throws leaves [null]. *)
Definition decoded (r : Response) : JsValue :=
  let contentType := match resp_headers r !! "content-type" with
                     | Some v => v
                     | None => EmptyString
                     end in
  if includes "application/json" contentType
  then match resp_json r with Ok v => v | Throw _ => JsNull end
  else match resp_text r with Ok t => JsString t | Throw _ => JsNull end.

(** The method name a verb method passes to [makeRequest]. *)
Definition verb_name (v : Verb) : string :=
  match v with
  | GET => "GET" | POST => "POST" | PUT => "PUT" | PATCH => "PATCH" | DELETE => "DELETE"
  end.

(** The request [makeRequest] makes for the verb [v]. *)
Definition raw_request (s : State) (v : Verb) (url : string) (o : RequestOptions)
    : Request :=
  {| req_verb := v; req_url := with_params url o;
     req_options := requestOptions o (defaultHeaders s) |}.

(** Two states of clients that are configured alike and have had the same
    effects, whatever their loggers print. *)
Definition alike (s s' : State) : Prop :=
  context s = context s' ∧ baseURL s = baseURL s'
  ∧ defaultHeaders s = defaultHeaders s'
  ∧ effects (trace s) = effects (trace s').

Definition opened (t : list Event) : list Context :=
  omap (λ e, match e with EvNewContext c => Some c | _ => None end) t.

Definition disposed (t : list Event) : list Context :=
  omap (λ e, match e with EvDisposeContext c => Some c | _ => None end) t.

(** ** Lemmas *)

Lemma similar_alike s s' : s ≃ s' → alike s s'.
Proof. intros (? & ? & ? & _ & ?). by repeat split. Qed.

Lemma alike_sym s s' : alike s s' → alike s' s.
Proof. intros (? & ? & ? & ?). by repeat split. Qed.

Lemma alike_trans s1 s2 s3 : alike s1 s2 → alike s2 s3 → alike s1 s3.
Proof.
  intros (? & ? & ? & ?) (? & ? & ? & ?). repeat split; congruence.
Qed.

Lemma alike_emit e s s' : alike s s' → alike (emit e s) (emit e s').
Proof.
  intros (? & ? & ? & Ht). repeat split; simpl; try done.
  by rewrite !effects_app, Ht.
Qed.

Lemma alike_sent s s' : alike s s' → sent s = sent s'.
Proof.
  intros (_ & _ & _ & Ht). unfold sent.
  by rewrite <- (requests_effects (trace s)), Ht, requests_effects.
Qed.

Lemma read_body_decoded r s :
  match read_body r s with
  | (Ok v, _) => decoded r = v
  | (Throw _, _) => decoded r = JsNull
  end.
Proof.
  unfold read_body, decoded.
  destruct (includes _ _); [destruct (resp_json r) | destruct (resp_text r)]; done.
Qed.

Lemma processResponse_decoded r s :
  ∃ s', processResponse r s = (Ok (envelope r (decoded r)), s') ∧ s' ≃ s.
Proof.
  destruct (processResponse_spec r s) as (d & s' & Hrun & Hs' & Hnull & Hval).
  exists s'. split; [|done]. rewrite Hrun. do 3 f_equal.
  pose proof (read_body_decoded r s) as Hd.
  destruct (read_body r s) as [[v|e] s0] eqn:Hbody.
  - by rewrite (Hval v s0).
  - by rewrite (Hnull e s0).
Qed.

(** [makeRequest] under any spelling of a verb's name. *)
Lemma makeRequest_spec T name v url o s c :
  context s = Some c →
  toUpperCase name = verb_name v →
  ∃ s', s' ≃ emit (EvRequest (raw_request s v url o)) s
        ∧ makeRequest T name url o s
          = (match T (sent s) (raw_request s v url o) with
             | Reply r => Ok (envelope r (decoded r))
             | Fault e => Throw e
             end, s').
Proof.
  intros Hc Hname. unfold makeRequest, bind, gets. rewrite Hc. unfold info.
  destruct (log_spec Logger.INFO ("Making " +:+ name +:+ " request to " +:+ url) s)
    as (s0 & -> & H0).
  rewrite Hname.
  assert ((if String.eqb (verb_name v) "GET"
           then send T GET (with_params url o) (requestOptions o (defaultHeaders s))
           else if String.eqb (verb_name v) "POST"
           then send T POST (with_params url o) (requestOptions o (defaultHeaders s))
           else if String.eqb (verb_name v) "PUT"
           then send T PUT (with_params url o) (requestOptions o (defaultHeaders s))
           else if String.eqb (verb_name v) "PATCH"
           then send T PATCH (with_params url o) (requestOptions o (defaultHeaders s))
           else if String.eqb (verb_name v) "DELETE"
           then send T DELETE (with_params url o) (requestOptions o (defaultHeaders s))
           else throw (Error ("Unsupported HTTP method: " +:+ name)))
          = send T v (with_params url o) (requestOptions o (defaultHeaders s))) as ->.
  { by destruct v. }
  unfold send. rewrite (similar_sent _ _ H0).
  fold (raw_request s v url o).
  destruct (T (sent s) (raw_request s v url o)) as [r|e].
  - destruct (processResponse_decoded r (emit (EvRequest (raw_request s v url o)) s0))
      as (s' & -> & Hs').
    exists s'. split; [|done].
    eapply similar_trans; [exact Hs' | by apply similar_emit].
  - exists (emit (EvRequest (raw_request s v url o)) s0).
    split; [by apply similar_emit | done].
Qed.

Lemma call_makeRequest T v url d o :
  call T v url d o = makeRequest T (verb_name v) url (call_options v d o).
Proof. by destruct v. Qed.

Lemma request_of_raw s v url d o :
  request_of s v url d o = raw_request s v url (call_options v d o).
Proof. reflexivity. Qed.

(** A verb call on a client with a context, in full. *)
Lemma call_result T v url d o s c :
  context s = Some c →
  ∃ s', s' ≃ emit (EvRequest (request_of s v url d o)) s
        ∧ call T v url d o s
          = (match T (sent s) (request_of s v url d o) with
             | Reply r => Ok (envelope r (decoded r))
             | Fault e => Throw e
             end, s').
Proof.
  intros Hc. rewrite call_makeRequest, request_of_raw.
  apply (makeRequest_spec T (verb_name v) v url (call_options v d o) s c Hc).
  by destruct v.
Qed.

(** The form [uploadFile] posts. *)
Definition upload_form (filePath fieldName : string)
    (additionalData : gmap string JsValue) : gmap string FormValue :=
  (FormField <$> additionalData) ∪ <[fieldName := FileStream filePath]> ∅.

Lemma uploadFile_spec T url filePath fieldName extra s c :
  context s = Some c →
  let q := {| req_verb := POST; req_url := url;
              req_options := Multipart (upload_form filePath fieldName extra) |} in
  ∃ s', s' ≃ emit (EvRequest q) s
        ∧ uploadFile T url filePath fieldName extra s
          = (match T (sent s) q with
             | Reply r => Ok (envelope r (decoded r))
             | Fault e => Throw e
             end, s').
Proof.
  intros Hc q. unfold uploadFile, bind, gets. rewrite Hc. unfold info.
  destruct (log_spec Logger.INFO ("Uploading file to " +:+ url) s) as (s0 & -> & H0).
  unfold send. rewrite (similar_sent _ _ H0). fold (upload_form filePath fieldName extra).
  fold q. destruct (T (sent s) q) as [r|e].
  - destruct (processResponse_decoded r (emit (EvRequest q) s0)) as (s' & -> & Hs').
    exists s'. split; [|done].
    eapply similar_trans; [exact Hs' | by apply similar_emit].
  - exists (emit (EvRequest q) s0). split; [by apply similar_emit | done].
Qed.

Lemma similar_emit_requests s' q s :
  s' ≃ emit (EvRequest q) s → requests (trace s') = requests (trace s) ++ [q].
Proof.
  intros Hs. rewrite (similar_requests _ _ Hs). unfold requests. simpl.
  by rewrite omap_app.
Qed.

Lemma prefix_app s t : String.prefix s (s +:+ t) = true.
Proof.
  induction s as [|a s IH]; [by destruct t|].
  rewrite TestDataFactoryProofs.append_cons. simpl.
  by destruct (ascii_dec a a).
Qed.

Lemma prefix_app_l n : ∀ s t, String.prefix n s = true → String.prefix n (s +:+ t) = true.
Proof.
  induction n as [|a n IH]; intros s t H; [by destruct (s +:+ t)|].
  destruct s as [|b s]; [done|].
  rewrite TestDataFactoryProofs.append_cons. simpl in *.
  destruct (ascii_dec a b); [by apply IH | done].
Qed.

Lemma includes_app_l n s t : includes n s = true → includes n (s +:+ t) = true.
Proof.
  induction s as [|a s IH]; intros H.
  - simpl in H. rewrite orb_false_r in H. destruct n; [|done].
    change (EmptyString +:+ t) with t. by destruct t.
  - rewrite TestDataFactoryProofs.append_cons.
    cbn [includes] in *. apply orb_true_iff in H as [H|H].
    + pose proof (prefix_app_l n (String a s) t H) as Hp.
      rewrite TestDataFactoryProofs.append_cons in Hp. by rewrite Hp.
    + rewrite (IH H). apply orb_true_r.
Qed.

Lemma includes_app_r n s t : includes n t = true → includes n (s +:+ t) = true.
Proof.
  intros H. induction s as [|a s IH]; [done|].
  rewrite TestDataFactoryProofs.append_cons. cbn [includes]. rewrite IH.
  apply orb_true_r.
Qed.

Lemma opened_app t1 t2 : opened (t1 ++ t2) = opened t1 ++ opened t2.
Proof. apply omap_app. Qed.

Lemma disposed_app t1 t2 : disposed (t1 ++ t2) = disposed t1 ++ disposed t2.
Proof. apply omap_app. Qed.

Lemma opened_effects t : opened (effects t) = opened t.
Proof. induction t as [|e t IH]; [done|]. destruct e; simpl; rewrite ?IH; done. Qed.

Lemma disposed_effects t : disposed (effects t) = disposed t.
Proof. induction t as [|e t IH]; [done|]. destruct e; simpl; rewrite ?IH; done. Qed.

Lemma dispose_spec_some s c :
  context s = Some c →
  ∃ s1, dispose s = (Ok tt, s1)
        ∧ effects (trace s1) = effects (trace s) ++ [EvDisposeContext c].
Proof.
  intros Hc. unfold dispose, bind, gets. rewrite Hc. unfold modify, info.
  destruct (log_spec Logger.INFO "API client disposed"
              (set_context None (emit (EvDisposeContext c) s)))
    as (s1 & -> & Hs1).
  destruct Hs1 as (_ & _ & _ & _ & Ht1). simpl in Ht1.
  exists s1. split; [done|]. by rewrite Ht1, effects_app.
Qed.

(** ** Sample clients *)

(** A started client that carries a token. *)
Definition signed_in : State := (setAuthToken "t0k3n" started).2.

(** ** Life cycle *)

(** [dispose] never throws and leaves no context.  On a client without
    context it changes nothing, so disposing twice is disposing once; on a
    client with a context it disposes that context, once. *)
Theorem dispose_idempotent (s : State) :
  ∃ s1, dispose s = (Ok tt, s1)
        ∧ context s1 = None
        ∧ dispose s1 = (Ok tt, s1)
        ∧ (context s = None → s1 = s)
        ∧ (∀ c, context s = Some c →
                effects (trace s1) = effects (trace s) ++ [EvDisposeContext c]).
Proof.
  unfold dispose at 1. unfold bind, gets.
  destruct (context s) as [c|] eqn:Hc.
  - unfold modify, info.
    destruct (log_spec Logger.INFO "API client disposed"
                (set_context None (emit (EvDisposeContext c) s)))
      as (s1 & -> & Hs1).
    pose proof Hs1 as (Hc1 & _ & _ & _ & Ht1). simpl in Hc1, Ht1.
    exists s1. split; [done|]. split; [done|]. split.
    + unfold dispose, bind, gets. by rewrite Hc1.
    + split; [done|]. intros c' [= <-]. rewrite Ht1, effects_app. done.
  - exists s. split; [done|]. split; [done|]. split.
    + unfold dispose, bind, gets. by rewrite Hc.
    + split; [done|]. intros c' [=].
Qed.

(** [init] opens a context on the base URL with the default headers of that
    moment and disposes nothing: a second [init] opens a second context over
    the first, and the [dispose] that follows disposes one context only. *)
Theorem init_never_disposes (s : State) :
  ∃ s1 s2 s3, init s = (Ok tt, s1) ∧ init s1 = (Ok tt, s2) ∧ dispose s2 = (Ok tt, s3)
    ∧ context s1 = Some {| ctx_baseURL := baseURL s;
                           ctx_extraHTTPHeaders := defaultHeaders s |}
    ∧ disposed (trace s1) = disposed (trace s)
    ∧ length (opened (trace s3)) = S (S (length (opened (trace s))))
    ∧ length (disposed (trace s3)) = S (length (disposed (trace s))).
Proof.
  assert (∀ s0, ∃ s1, init s0 = (Ok tt, s1)
            ∧ context s1 = Some {| ctx_baseURL := baseURL s0;
                                   ctx_extraHTTPHeaders := defaultHeaders s0 |}
            ∧ baseURL s1 = baseURL s0 ∧ defaultHeaders s1 = defaultHeaders s0
            ∧ effects (trace s1)
              = effects (trace s0)
                ++ [EvNewContext {| ctx_baseURL := baseURL s0;
                                    ctx_extraHTTPHeaders := defaultHeaders s0 |}]) as Hinit.
  { intros s0. unfold init, bind, gets, modify, info.
    match goal with |- context [log Logger.INFO ?m ?st] =>
      destruct (log_spec Logger.INFO m st) as (s1 & -> & Hs1) end.
    destruct Hs1 as (Hc & Hb & Hh & _ & Ht). simpl in *.
    exists s1. repeat split; try done. by rewrite Ht, effects_app. }
  destruct (Hinit s) as (s1 & Hr1 & Hc1 & Hb1 & Hh1 & Ht1).
  destruct (Hinit s1) as (s2 & Hr2 & Hc2 & Hb2 & Hh2 & Ht2).
  destruct (dispose_spec_some s2 _ Hc2) as (s3 & Hr3 & Ht3).
  exists s1, s2, s3. repeat split; try done.
  - rewrite <- (disposed_effects (trace s1)), Ht1, disposed_app. simpl.
    rewrite app_nil_r. apply disposed_effects.
  - rewrite <- (opened_effects (trace s3)), Ht3, Ht2, Ht1.
    rewrite !opened_app, !length_app, opened_effects. simpl. lia.
  - rewrite <- (disposed_effects (trace s3)), Ht3, Ht2, Ht1.
    rewrite !disposed_app, !length_app, disposed_effects. simpl. lia.
Qed.

(** ** The constructor *)

(** The default headers of a new client: the headers the caller gives win
    over the two JSON defaults, 'Content-Type' and 'Accept', and nothing else
    is added.  No context is open. *)
Theorem new_default_headers (LOG_LEVEL : option string) (url : string)
    (hdrs : gmap string string) (k : string) :
  context (new LOG_LEVEL url hdrs) = None
  ∧ baseURL (new LOG_LEVEL url hdrs) = url
  ∧ defaultHeaders (new LOG_LEVEL url hdrs) !! k
    = match hdrs !! k with
      | Some v => Some v
      | None => if bool_decide (k = "Content-Type" ∨ k = "Accept")
                then Some "application/json" else None
      end.
Proof.
  split; [done|]. split; [done|]. simpl.
  destruct (hdrs !! k) as [v|] eqn:Hk.
  - by apply lookup_union_Some_l.
  - rewrite lookup_union_r by done. case_bool_decide as Hd.
    + destruct Hd as [-> | ->]; [apply lookup_insert_eq|].
      rewrite lookup_insert_ne by done. apply lookup_insert_eq.
    + rewrite !lookup_insert_ne by (intros <-; tauto). apply lookup_empty.
Qed.

(** ** What a verb call sends *)

(** Header precedence: a header of the call wins over the default header of
    the same name; a name the call does not mention keeps its default. *)
Theorem call_header_precedence (T : Transport) (s : State) (c : Context) (v : Verb)
    (url : string) (d : option JsValue) (o : RequestOptions) (k : string) :
  context s = Some c →
  ∃ q h, requests (trace (call T v url d o s).2) = requests (trace s) ++ [q]
         ∧ request_headers q = Some h
         ∧ h !! k = match headers o with
                    | Some given =>
                        match given !! k with
                        | Some x => Some x
                        | None => defaultHeaders s !! k
                        end
                    | None => defaultHeaders s !! k
                    end.
Proof.
  intros Hc. exists (request_of s v url d o).
  eexists. split; [by apply (call_requests T v url d o s c)|].
  split; [reflexivity|].
  assert (headers (call_options v d o) = headers o) as -> by (by destruct v).
  destruct (headers o) as [given|].
  - destruct (given !! k) as [x|] eqn:Hk.
    + by apply lookup_union_Some_l.
    + by apply lookup_union_r.
  - by apply lookup_union_r.
Qed.

Lemma call_header_precedence_witness :
  ∃ q h, requests (trace (call missing GET "/me" None
                            {| headers := Some (<["Authorization" := "Basic abc"]> ∅);
                               data := None; params := None; timeout := None |}
                            signed_in).2)
         = requests (trace signed_in) ++ [q]
         ∧ request_headers q = Some h
         ∧ h !! "Authorization" = Some "Basic abc".
Proof.
  destruct (call_header_precedence missing signed_in
              {| ctx_baseURL := "http://localhost:3000";
                 ctx_extraHTTPHeaders := defaultHeaders localhost |}
              GET "/me" None
              {| headers := Some (<["Authorization" := "Basic abc"]> ∅);
                 data := None; params := None; timeout := None |} "Authorization")
    as (q & h & Hq & Hh & Hk); [reflexivity|].
  exists q, h. split; [exact Hq|]. split; [exact Hh|].
  rewrite Hk. cbn [headers]. by rewrite lookup_insert_eq.
Defined.

(** The timeout of a request is never 0: a timeout of 0, like no timeout at
    all, is replaced by 30000; any other timeout is passed on. *)
Theorem call_timeout (T : Transport) (s : State) (c : Context) (v : Verb)
    (url : string) (d : option JsValue) (o : RequestOptions) :
  context s = Some c →
  ∃ q h t b, requests (trace (call T v url d o s).2) = requests (trace s) ++ [q]
             ∧ req_options q = Fetch h t b
             ∧ t ≠ 0
             ∧ t = match timeout o with
                   | Some given => if given =? 0 then 30000 else given
                   | None => 30000
                   end.
Proof.
  intros Hc. exists (request_of s v url d o).
  eexists _, _, _. split; [by apply (call_requests T v url d o s c)|].
  split; [reflexivity|].
  assert (timeout (call_options v d o) = timeout o) as -> by (by destruct v).
  split; [|done]. destruct (timeout o) as [given|]; [|done].
  destruct (given =? 0) eqn:E; lia.
Qed.

Lemma call_timeout_witness :
  ∃ q h t b, requests (trace (call missing GET "/slow" None
                                {| headers := None; data := None; params := None;
                                   timeout := Some 0 |} started).2)
             = requests (trace started) ++ [q]
             ∧ req_options q = Fetch h t b
             ∧ t ≠ 0
             ∧ t = 30000.
Proof.
  apply (call_timeout missing started
           {| ctx_baseURL := "http://localhost:3000";
              ctx_extraHTTPHeaders := defaultHeaders localhost |}
           GET "/slow" None
           {| headers := None; data := None; params := None; timeout := Some 0 |}).
  reflexivity.
Defined.

(** The body of a request.  [post], [put] and [patch] send their data
    argument and never the [data] of the options; [get] and [delete] send the
    [data] of the options.  A falsy value ([null], [false], 0, the empty
    string) is not sent at all. *)
Theorem call_body (T : Transport) (s : State) (c : Context) (v : Verb)
    (url : string) (d : option JsValue) (o : RequestOptions) :
  context s = Some c →
  ∃ q h t b, requests (trace (call T v url d o s).2) = requests (trace s) ++ [q]
             ∧ req_verb q = v
             ∧ req_options q = Fetch h t b
             ∧ ∀ x, b = Some x
                    ↔ match v with GET | DELETE => data o | _ => d end = Some x
                      ∧ truthy x = true.
Proof.
  intros Hc. exists (request_of s v url d o).
  eexists _, _, _. split; [by apply (call_requests T v url d o s c)|].
  split; [reflexivity|]. split; [reflexivity|].
  assert (data (call_options v d o)
          = match v with GET | DELETE => data o | _ => d end) as -> by (by destruct v).
  intros x. destruct (match v with GET | DELETE => data o | _ => d end) as [y|].
  - destruct (truthy y) eqn:Hy; split.
    + intros [= <-]. done.
    + by intros [[= <-] _].
    + done.
    + intros [[= <-] Hx]. congruence.
  - split; [done | by intros [? _]].
Qed.

Lemma call_body_witness :
  ∃ q h t b, requests (trace (call missing POST "/count" (Some (JsNumber 0))
                                {| headers := None; data := Some (JsString "kept?");
                                   params := None; timeout := None |} started).2)
             = requests (trace started) ++ [q]
             ∧ req_verb q = POST
             ∧ req_options q = Fetch h t b
             ∧ ∀ x, b = Some x ↔ Some (JsNumber 0) = Some x ∧ truthy x = true.
Proof.
  apply (call_body missing started
           {| ctx_baseURL := "http://localhost:3000";
              ctx_extraHTTPHeaders := defaultHeaders localhost |}
           POST "/count" (Some (JsNumber 0))
           {| headers := None; data := Some (JsString "kept?");
              params := None; timeout := None |}).
  reflexivity.
Defined.

(** The url of a request starts with the url of the call.  Without [params]
    it is that url; with [params] a query string is appended, so the url
    holds a "?", after a "&" when the url of the call had a "?" already. *)
Theorem call_url (T : Transport) (s : State) (c : Context) (v : Verb)
    (url : string) (d : option JsValue) (o : RequestOptions) :
  context s = Some c →
  ∃ q, requests (trace (call T v url d o s).2) = requests (trace s) ++ [q]
       ∧ String.prefix url (req_url q) = true
       ∧ (params o = None → req_url q = url)
       ∧ (∀ p, params o = Some p →
               includes "?" (req_url q) = true
               ∧ (includes "?" url = true →
                  req_url q = url +:+ "&" +:+ searchParams_toString p)
               ∧ (includes "?" url = false →
                  req_url q = url +:+ "?" +:+ searchParams_toString p)).
Proof.
  intros Hc. exists (request_of s v url d o).
  split; [by apply (call_requests T v url d o s c)|].
  unfold request_of, with_params. cbn [req_url].
  assert (params (call_options v d o) = params o) as -> by (by destruct v).
  destruct (params o) as [p|].
  - split; [apply prefix_app|]. split; [done|].
    intros p' [= <-]. destruct (includes "?" url) eqn:Hq.
    + split; [by apply includes_app_l|]. by split.
    + split; [|by split]. apply includes_app_r.
      change ("?" +:+ ?r) with (String "?" r). cbn [includes]. simpl.
      by destruct (searchParams_toString p).
  - split; [|by split].
    rewrite <- (TestDataFactoryProofs.append_nil_r url) at 2. apply prefix_app.
Qed.

Lemma call_url_witness :
  ∃ q, requests (trace (call missing GET "/events?page=2" None
                          {| headers := None; data := None;
                             params := Some [("city", "New York")]; timeout := None |}
                          started).2)
       = requests (trace started) ++ [q]
       ∧ req_url q = "/events?page=2&city=New+York".
Proof.
  destruct (call_url missing started
              {| ctx_baseURL := "http://localhost:3000";
                 ctx_extraHTTPHeaders := defaultHeaders localhost |}
              GET "/events?page=2" None
              {| headers := None; data := None;
                 params := Some [("city", "New York")]; timeout := None |})
    as (q & Hq & _ & _ & Hp); [reflexivity|].
  exists q. split; [exact Hq|].
  destruct (Hp [("city", "New York")] eq_refl) as (_ & Hamp & _).
  rewrite Hamp by reflexivity. reflexivity.
Defined.

(** ** Method names *)



(** ** Faults *)

(** A fault of the transport during a verb call is thrown on to the caller
    as it is; the request has been made, and the client is configured as
    before. *)
Theorem call_fault_propagates (T : Transport) (s : State) (c : Context) (v : Verb)
    (url : string) (d : option JsValue) (o : RequestOptions) (e : Exn) :
  context s = Some c →
  T (sent s) (request_of s v url d o) = Fault e →
  ∃ s', call T v url d o s = (Throw e, s')
        ∧ requests (trace s') = requests (trace s) ++ [request_of s v url d o]
        ∧ context s' = Some c
        ∧ defaultHeaders s' = defaultHeaders s.
Proof.
  intros Hc Hf. destruct (call_result T v url d o s c Hc) as (s' & Hs' & Hrun).
  rewrite Hf in Hrun. exists s'. split; [done|].
  split; [by apply similar_emit_requests|].
  destruct Hs' as (Hc' & _ & Hh' & _). simpl in *. split; congruence.
Qed.

Lemma call_fault_propagates_witness :
  ∃ s', call down PUT "/users/7" (Some (JsString "name")) no_options started
        = (Throw (Error "connect ECONNREFUSED"), s')
        ∧ requests (trace s')
          = requests (trace started)
            ++ [request_of started PUT "/users/7" (Some (JsString "name")) no_options]
        ∧ context s' = context started
        ∧ defaultHeaders s' = defaultHeaders started.
Proof.
  apply (call_fault_propagates down started
           {| ctx_baseURL := "http://localhost:3000";
              ctx_extraHTTPHeaders := defaultHeaders localhost |}
           PUT "/users/7" (Some (JsString "name")) no_options
           (Error "connect ECONNREFUSED")); reflexivity.
Defined.

(** ** Uploads *)

(** [uploadFile] posts one multipart request to the url as given.  The form
    holds the file under [fieldName] and the additional data under their own
    names; additional data named [fieldName] take the place of the file. *)
Theorem uploadFile_request (T : Transport) (s : State) (c : Context)
    (url filePath fieldName : string) (extra : gmap string JsValue) :
  context s = Some c →
  ∃ q form,
    requests (trace (uploadFile T url filePath fieldName extra s).2)
    = requests (trace s) ++ [q]
    ∧ req_verb q = POST
    ∧ req_url q = url
    ∧ req_options q = Multipart form
    ∧ form !! fieldName = Some match extra !! fieldName with
                               | Some x => FormField x
                               | None => FileStream filePath
                               end
    ∧ ∀ k, k ≠ fieldName → form !! k = FormField <$> extra !! k.
Proof.
  intros Hc. destruct (uploadFile_spec T url filePath fieldName extra s c Hc)
    as (s' & Hs' & Hrun).
  eexists _, (upload_form filePath fieldName extra). rewrite Hrun.
  split; [by apply similar_emit_requests|].
  split; [done|]. split; [done|]. split; [done|]. unfold upload_form. split.
  - destruct (extra !! fieldName) as [x|] eqn:Hx.
    + apply lookup_union_Some_l. by rewrite lookup_fmap, Hx.
    + rewrite lookup_union_r by (by rewrite lookup_fmap, Hx).
      apply lookup_insert_eq.
  - intros k Hk. rewrite lookup_union_l; [apply lookup_fmap|].
    by rewrite lookup_insert_ne, lookup_empty.
Qed.

Lemma uploadFile_request_witness :
  ∃ q form,
    requests (trace (uploadFile missing "/avatar" "me.png" "file"
                       (<["file" := JsString "not a file"]> ∅) started).2)
    = requests (trace started) ++ [q]
    ∧ req_verb q = POST
    ∧ req_url q = "/avatar"
    ∧ req_options q = Multipart form
    ∧ form !! "file" = Some (FormField (JsString "not a file")).
Proof.
  destruct (uploadFile_request missing started
              {| ctx_baseURL := "http://localhost:3000";
                 ctx_extraHTTPHeaders := defaultHeaders localhost |}
              "/avatar" "me.png" "file" (<["file" := JsString "not a file"]> ∅))
    as (q & form & Hq & Hv & Hu & Ho & Hfile & _); [reflexivity|].
  exists q, form. split; [exact Hq|]. split; [exact Hv|]. split; [exact Hu|].
  split; [exact Ho|]. rewrite Hfile. by rewrite lookup_insert_eq.
Defined.

(** ** What requests leave alone *)

(** The configuration of a client: its context, base URL and default
    headers. *)
Definition config (s : State) : option Context * string * gmap string string :=
  (context s, baseURL s, defaultHeaders s).

Lemma similar_config s s' : s ≃ s' → config s = config s'.
Proof. intros (Hc & Hb & Hh & _). unfold config. by rewrite Hc, Hb, Hh. Qed.

Lemma checked_config s : config (checked s) = config s.
Proof. unfold checked. by destruct (context s). Qed.

Lemma healthCheck_config T s : config (healthCheck T s).2 = config s.
Proof.
  destruct (healthCheck_spec T s) as (s' & -> & Hs').
  simpl. rewrite (similar_config _ _ Hs'). apply checked_config.
Qed.

Lemma waitLoop_config T n d rem : ∀ attempt s,
  config (waitLoop T rem attempt n d s).2 = config s.
Proof.
  induction rem as [|rem IH]; intros attempt s; [done|].
  simpl. unfold bind at 1. unfold info at 1.
  destruct (log_spec Logger.INFO
    ("Checking API readiness (attempt " +:+ pretty attempt +:+ "/" +:+ pretty n +:+ ")") s)
    as (s0 & -> & Hs0).
  unfold bind at 1.
  pose proof (healthCheck_config T s0) as Hcfg.
  destruct (healthCheck_spec T s0) as (s1 & Hrun & _). rewrite Hrun in Hcfg |- *.
  simpl in Hcfg. rewrite (similar_config _ _ Hs0) in Hcfg.
  destruct (check_result T s0 0).
  - unfold info. destruct (log_spec Logger.INFO "API is ready" s1) as (s2 & -> & Hs2).
    simpl. by rewrite (similar_config _ _ Hs2).
  - unfold bind at 1. destruct (attempt <? n).
    + unfold bind at 1. unfold info at 1.
      destruct (log_spec Logger.INFO ("API not ready, waiting " +:+ pretty d +:+ "ms...") s1)
        as (s2 & -> & Hs2).
      unfold sleep, modify. rewrite IH.
      change (config (emit (EvSleep d) s2)) with (config s2).
      by rewrite (similar_config _ _ Hs2).
    + cbn [ret]. by rewrite IH.
Qed.

(** No request changes the configuration of the client: after a verb call,
    an upload, a health check or a wait for readiness, whether it returns or
    throws, the context, the base URL and the default headers are the ones
    before. *)
Theorem requests_keep_configuration (T : Transport) (s : State) :
  (∀ v url d o, config (call T v url d o s).2 = config s)
  ∧ (∀ url filePath fieldName extra,
       config (uploadFile T url filePath fieldName extra s).2 = config s)
  ∧ config (healthCheck T s).2 = config s
  ∧ (∀ maxAttempts delay, config (waitForApiReady T maxAttempts delay s).2 = config s).
Proof.
  split; [|split; [|split]].
  - intros v url d o. destruct (context s) as [c|] eqn:Hc.
    + destruct (call_result T v url d o s c Hc) as (s' & Hs' & ->).
      simpl. by rewrite (similar_config _ _ Hs').
    + by rewrite (call_without_context T v url d o s Hc).
  - intros url filePath fieldName extra. destruct (context s) as [c|] eqn:Hc.
    + destruct (uploadFile_spec T url filePath fieldName extra s c Hc) as (s' & Hs' & ->).
      simpl. by rewrite (similar_config _ _ Hs').
    + unfold uploadFile, bind, gets. by rewrite Hc.
  - apply healthCheck_config.
  - intros maxAttempts delay. apply waitLoop_config.
Qed.

(** The logger has no part in what a verb call does: on two clients that are
    configured alike and have had the same effects, whatever their log levels
    are, a call has the same outcome and leaves them alike again. *)
Theorem call_ignores_logger (T : Transport) (v : Verb) (url : string)
    (d : option JsValue) (o : RequestOptions) (s1 s2 : State) :
  alike s1 s2 →
  (call T v url d o s1).1 = (call T v url d o s2).1
  ∧ alike (call T v url d o s1).2 (call T v url d o s2).2.
Proof.
  intros Ha. pose proof Ha as (Hc & Hb & Hh & Ht).
  destruct (context s1) as [c|] eqn:Hc1.
  - destruct (call_result T v url d o s1 c Hc1) as (s1' & Hs1' & ->).
    destruct (call_result T v url d o s2 c) as (s2' & Hs2' & ->); [done|].
    assert (request_of s1 v url d o = request_of s2 v url d o) as Hq.
    { unfold request_of. by rewrite Hh. }
    rewrite (alike_sent _ _ Ha), Hq. split; [done|]. simpl.
    eapply alike_trans; [apply similar_alike, Hs1'|].
    eapply alike_trans; [|apply alike_sym, similar_alike, Hs2'].
    rewrite Hq. by apply alike_emit.
  - rewrite (call_without_context T v url d o s1 Hc1).
    by rewrite (call_without_context T v url d o s2).
Qed.

(** A started client that prints errors only. *)
Definition started_quietly : State :=
  (init (new (Some "error") "http://localhost:3000" ∅)).2.

Lemma call_ignores_logger_witness :
  (call missing GET "/users" None no_options started).1
  = (call missing GET "/users" None no_options started_quietly).1
  ∧ alike (call missing GET "/users" None no_options started).2
          (call missing GET "/users" None no_options started_quietly).2.
Proof.
  apply (call_ignores_logger missing GET "/users" None no_options started started_quietly).
  repeat split; reflexivity.
Defined.

(** ** Decoding *)

(** The reader of the body is picked by the content type alone, whatever the
    status.  A content type that holds "application/json" gets the body
    parsed; any other content type, or none, leaves the body a string. *)
Theorem processResponse_decodes_by_content_type (r : Response) (s : State) :
  ∃ env s', processResponse r s = (Ok env, s')
    ∧ (∀ ct v, resp_headers r !! "content-type" = Some ct →
               includes "application/json" ct = true →
               resp_json r = Ok v → response_data env = v)
    ∧ (∀ t, (resp_headers r !! "content-type" = None
             ∨ ∃ ct, resp_headers r !! "content-type" = Some ct
                     ∧ includes "application/json" ct = false) →
            resp_text r = Ok t → response_data env = JsString t).
Proof.
  destruct (processResponse_decoded r s) as (s' & Hrun & _).
  exists (envelope r (decoded r)), s'. split; [done|]. unfold decoded. simpl. split.
  - intros ct v -> -> ->. done.
  - intros t [-> | (ct & -> & ->)] ->; done.
Qed.

(** A JSON problem document: its content type is not "application/json". *)
Definition problem : Response :=
  {| resp_status := 422;
     resp_headers := <["content-type" := "application/problem+json"]> ∅;
     resp_json := Ok (JsObject [("title", JsString "Invalid")]);
     resp_text := Ok "{title:Invalid}" |}.

Lemma processResponse_decodes_by_content_type_witness :
  ∃ env s', processResponse problem started = (Ok env, s')
            ∧ response_data env = JsString "{title:Invalid}".
Proof.
  destruct (processResponse_decodes_by_content_type problem started)
    as (env & s' & Hrun & _ & Htext).
  exists env, s'. split; [exact Hrun|]. apply Htext; [|reflexivity].
  right. exists "application/problem+json". split; reflexivity.
Defined.

(** ** Tokens *)

(** Setting a token and clearing it leaves the default headers without an
    'Authorization' entry: as they were when they had none.  Of two tokens
    set in a row the second stays, and clearing twice is clearing once. *)
Theorem auth_token_round_trip (t1 t2 : string) (s : State) :
  defaultHeaders (clearAuthToken (setAuthToken t1 s).2).2
  = base.delete "Authorization" (defaultHeaders s)
  ∧ (defaultHeaders s !! "Authorization" = None →
     defaultHeaders (clearAuthToken (setAuthToken t1 s).2).2 = defaultHeaders s)
  ∧ defaultHeaders (setAuthToken t2 (setAuthToken t1 s).2).2
    = defaultHeaders (setAuthToken t2 s).2
  ∧ defaultHeaders (clearAuthToken (clearAuthToken s).2).2
    = defaultHeaders (clearAuthToken s).2.
Proof.
  assert (∀ h m s0, defaultHeaders
            ((let* _ := modify (set_defaultHeaders h) in info m) s0).2 = h) as Hset.
  { intros h m s0. unfold bind, modify, info.
    destruct (log_spec Logger.INFO m (set_defaultHeaders h s0)) as (s1 & -> & Hs1).
    destruct Hs1 as (_ & _ & Hh & _). simpl. by rewrite Hh. }
  assert (∀ t s0, defaultHeaders (setAuthToken t s0).2
                  = <["Authorization" := "Bearer " +:+ t]> (defaultHeaders s0)) as Hs.
  { intros t s0. unfold setAuthToken, bind at 1, gets. apply Hset. }
  assert (∀ s0, defaultHeaders (clearAuthToken s0).2
                = base.delete "Authorization" (defaultHeaders s0)) as Hcl.
  { intros s0. unfold clearAuthToken, bind at 1, gets. apply Hset. }
  rewrite !Hcl, !Hs. split; [apply delete_insert_eq|].
  split; [|split].
  - intros Hnone. rewrite delete_insert_eq. by apply delete_id.
  - apply insert_insert_eq.
  - apply delete_delete_eq.
Qed.

(** ** Waiting without a client *)

(** On a client without context, [waitForApiReady] makes no request: every
    health check fails on the spot, and after [maxAttempts - 1] delays the
    call throws the readiness error, not the "not initialized" one. *)
Theorem waitForApiReady_without_context (T : Transport) (s : State)
    (maxAttempts delay : Z) :
  context s = None →
  1 ≤ maxAttempts →
  ∃ s', waitForApiReady T maxAttempts delay s = (Throw timed_out, s')
        ∧ requests (trace s') = requests (trace s)
        ∧ effects (trace s')
          = effects (trace s) ++ replicate (Z.to_nat maxAttempts - 1) (EvSleep delay).
Proof.
  intros Hc Hn. unfold waitForApiReady.
  destruct (waitLoop_exhausted T delay maxAttempts (Z.to_nat maxAttempts) 1 s)
    as (s' & Hrun & Heff); [lia | |].
  { intros i _. unfold check_result. by rewrite Hc. }
  assert (∀ k, polling s delay k = replicate k (EvSleep delay)) as Hpoll.
  { induction k as [|k IH]; simpl; unfold check_events; rewrite Hc; [done|].
    simpl. by rewrite IH. }
  destruct (Z.to_nat maxAttempts) as [|n] eqn:E; [lia|].
  rewrite Hpoll in Heff. rewrite Nat.sub_succ, Nat.sub_0_r.
  exists s'. split; [done|]. split; [|done].
  rewrite <- (requests_effects (trace s')), Heff.
  unfold requests. rewrite omap_app. fold (requests (effects (trace s))).
  rewrite requests_effects.
  assert (∀ k, omap (λ e, match e with EvRequest q => Some q | _ => None end)
                 (replicate k (EvSleep delay)) = []) as Hnone.
  { induction k as [|k IH]; [done | exact IH]. }
  rewrite Hnone. apply app_nil_r.
Qed.

Lemma waitForApiReady_without_context_witness :
  ∃ s', waitForApiReady missing 3 10 stopped = (Throw timed_out, s')
        ∧ requests (trace s') = requests (trace stopped)
        ∧ effects (trace s') = effects (trace stopped) ++ [EvSleep 10; EvSleep 10].
Proof.
  apply (waitForApiReady_without_context missing stopped 3 10); [reflexivity | lia].
Defined.

(** With no attempt to make, [waitForApiReady] throws the readiness error at
    once: no health check, no delay, no line on the console. *)
Theorem waitForApiReady_no_attempts (T : Transport) (s : State) (maxAttempts delay : Z) :
  maxAttempts ≤ 0 →
  waitForApiReady T maxAttempts delay s = (Throw timed_out, s).
Proof.
  intros Hn. unfold waitForApiReady.
  by replace (Z.to_nat maxAttempts) with 0%nat by lia.
Qed.

Lemma waitForApiReady_no_attempts_witness :
  waitForApiReady warming_up 0 2000 started = (Throw timed_out, started).
Proof. apply (waitForApiReady_no_attempts warming_up started 0 2000). lia. Defined.

End ApiClientExtras.

(** * More of the logger *)

(** The methods of [Logger] and what they print.  A line of the console is
    kept with the console method that printed it, its first argument and the
    arguments after it. *)

Module Console.

Import TestDataFactory.

Inductive Method : Type := console_debug | console_info | console_warn | console_error.

Record Line : Type := {
  method : Method;
  text : string;
  rest : list JsValue
}.

(** The clock and random source under the logger, and the console so far. *)
Record State : Type := {
  platform : TestDataFactory.State;
  lines : list Line
}.

Definition lift {A} (m : M TestDataFactory.State A) : M State A :=
  λ s, let (r, p) := m (platform s) in (r, {| platform := p; lines := lines s |}).

Definition print (c : Method) (t : string) (args : list JsValue) : M State Datatypes.unit :=
  modify (λ s, {| platform := platform s;
                  lines := lines s ++ [{| method := c; text := t; rest := args |}] |}).

Section WithEngine.

Variable E : Engine.

Definition formatMessage (lg : Logger.t) (level message : string) : M State string :=
  let* d := lift (Date_new E) in
  let* timestamp := lift (toISOString d) in
  ret ("[" +:+ timestamp +:+ "] [" +:+ level +:+ "] [" +:+ Logger.className lg
       +:+ "] " +:+ message).

Definition debug (lg : Logger.t) (message : string) (args : list JsValue) : M State Datatypes.unit :=
  if Logger.shouldLog lg Logger.DEBUG
  then let* m := formatMessage lg "DEBUG" message in print console_debug m args
  else ret tt.

Definition info (lg : Logger.t) (message : string) (args : list JsValue) : M State Datatypes.unit :=
  if Logger.shouldLog lg Logger.INFO
  then let* m := formatMessage lg "INFO" message in print console_info m args
  else ret tt.

Definition warn (lg : Logger.t) (message : string) (args : list JsValue) : M State Datatypes.unit :=
  if Logger.shouldLog lg Logger.WARN
  then let* m := formatMessage lg "WARN" message in print console_warn m args
  else ret tt.

(** [error(message, error?, ...args)]; [stack] is [error.stack] of the error
    given, [None] when no error is given. *)
Definition error (lg : Logger.t) (message : string) (stack : option string)
    (args : list JsValue) : M State Datatypes.unit :=
  if Logger.shouldLog lg Logger.ERROR
  then match stack with
       | Some st =>
           let* m := formatMessage lg "ERROR" message in
           print console_error m (JsString st :: args)
       | None =>
           let* m := formatMessage lg "ERROR" message in
           print console_error m args
       end
  else ret tt.

Definition step (lg : Logger.t) (stepName : string) : M State Datatypes.unit :=
  if Logger.shouldLog lg Logger.INFO
  then let* m := formatMessage lg "STEP" ("🔹 " +:+ stepName) in print console_info m []
  else ret tt.

Definition action (lg : Logger.t) (actionName : string) : M State Datatypes.unit :=
  if Logger.shouldLog lg Logger.INFO
  then let* m := formatMessage lg "ACTION" ("▶️ " +:+ actionName) in print console_info m []
  else ret tt.

Definition assertion (lg : Logger.t) (assertionName : string) : M State Datatypes.unit :=
  if Logger.shouldLog lg Logger.INFO
  then let* m := formatMessage lg "ASSERT" ("✅ " +:+ assertionName) in print console_info m []
  else ret tt.

Definition failure (lg : Logger.t) (failureMessage : string) : M State Datatypes.unit :=
  let* m := formatMessage lg "FAIL" ("❌ " +:+ failureMessage) in print console_error m [].

End WithEngine.

End Console.

Module LoggerExtras.

Import TestDataFactory.

(** The keys of the enum object that are its reverse mapping. *)
Definition digits : list string := ["0"; "1"; "2"; "3"].

(** The line a method prints for [message] under the tag [level] at the
    instant [now]. *)
Definition formatted (lg : Logger.t) (now : Z) (level message : string) : string :=
  "[" +:+ iso_string now +:+ "] [" +:+ level +:+ "] [" +:+ Logger.className lg
  +:+ "] " +:+ message.

(** The state after one reading of the clock. *)
Definition tick (s : Console.State) : Console.State :=
  {| Console.platform := {| draws := draws (Console.platform s);
                            reads := S (reads (Console.platform s)) |};
     Console.lines := Console.lines s |}.

(** The state after [c] printed [t] and [args] at the next reading of the
    clock. *)
Definition printed (c : Console.Method) (t : string) (args : list JsValue)
    (s : Console.State) : Console.State :=
  {| Console.platform := Console.platform (tick s);
     Console.lines := Console.lines s
                      ++ [{| Console.method := c; Console.text := t; Console.rest := args |}] |}.

(** The instant the next reading of the clock shows. *)
Definition now_of (E : Engine) (s : Console.State) : Z :=
  clock E (reads (Console.platform s)).

Lemma upper_upper c : upper_ascii (upper_ascii c) = upper_ascii c.
Proof. by destruct c as [[] [] [] [] [] [] [] []]. Qed.

Lemma upper_lower c : upper_ascii (lower_ascii c) = upper_ascii c.
Proof. by destruct c as [[] [] [] [] [] [] [] []]. Qed.

Lemma toUpperCase_idem v : toUpperCase (toUpperCase v) = toUpperCase v.
Proof.
  unfold toUpperCase. induction v as [|c v IH]; [done|].
  cbn [map_string]. by rewrite upper_upper, IH.
Qed.

Lemma toUpperCase_toLowerCase v : toUpperCase (toLowerCase v) = toUpperCase v.
Proof.
  unfold toUpperCase, toLowerCase. induction v as [|c v IH]; [done|].
  cbn [map_string]. by rewrite upper_lower, IH.
Qed.

Lemma upper_digit c d :
  d ∈ ["0"%char; "1"%char; "2"%char; "3"%char] → upper_ascii c = d → c = d.
Proof.
  intros Hd Hc. rewrite !elem_of_cons, elem_of_nil in Hd.
  destruct Hd as [->|[->|[->|[->|[]]]]];
    by destruct c as [[] [] [] [] [] [] [] []].
Qed.

Lemma toUpperCase_digit v d : d ∈ digits → toUpperCase v = d → v = d.
Proof.
  intros Hd Hv. unfold digits in Hd. rewrite !elem_of_cons, elem_of_nil in Hd.
  destruct Hd as [->|[->|[->|[->|[]]]]];
    (destruct v as [|c [|c' v]]; [done| |done]);
    injection Hv as Hc; f_equal; (eapply upper_digit; [|exact Hc]);
    rewrite !elem_of_cons; auto.
Qed.

(** [const level] of [getLogLevelFromEnv]. *)
Definition level_text (env : option string) : string :=
  match env with
  | Some v => if String.eqb (toUpperCase v) EmptyString then "INFO" else toUpperCase v
  | None => "INFO"
  end.

Ltac closed_fact := apply (bool_decide_unpack _); vm_compute; exact I.

(** What [getLogLevelFromEnv] yields, by the text it looks up. *)
Lemma getLogLevelFromEnv_cases env :
  (level_text env ∈ digits ∧ Logger.getLogLevelFromEnv env = None)
  ∨ ((level_text env ∉ digits)
     ∧ (∃ n, Logger.getLogLevelFromEnv env = Some n ∧ (0 ≤ n ≤ 3)
             ∧ (level_text env ∉ ["DEBUG"; "WARN"; "ERROR"] → n = 1))).
Proof.
  unfold Logger.getLogLevelFromEnv. fold (level_text env).
  generalize (level_text env). intros level. unfold digits.
  destruct (String.eqb_spec level "DEBUG") as [->|H1].
  { right. split; [closed_fact|]. exists 0.
    split; [done|]. split; [lia|]. intros H. exfalso. apply H. closed_fact. }
  destruct (String.eqb_spec level "INFO") as [->|H2].
  { right. split; [closed_fact|]. exists 1. by repeat split. }
  destruct (String.eqb_spec level "WARN") as [->|H3].
  { right. split; [closed_fact|]. exists 2.
    split; [done|]. split; [lia|]. intros H. exfalso. apply H. closed_fact. }
  destruct (String.eqb_spec level "ERROR") as [->|H4].
  { right. split; [closed_fact|]. exists 3.
    split; [done|]. split; [lia|]. intros H. exfalso. apply H. closed_fact. }
  destruct (String.eqb_spec level "0") as [->|H5]; [left; split; [closed_fact|done]|].
  destruct (String.eqb_spec level "1") as [->|H6]; [left; split; [closed_fact|done]|].
  destruct (String.eqb_spec level "2") as [->|H7]; [left; split; [closed_fact|done]|].
  destruct (String.eqb_spec level "3") as [->|H8]; [left; split; [closed_fact|done]|].
  right. split.
  - rewrite !elem_of_cons, elem_of_nil. tauto.
  - exists 1. cbn [orb]. split; [done|]. split; [lia|]. done.
Qed.

Lemma level_text_default env :
  (∀ v, env = Some v →
        toUpperCase v ∉ ["DEBUG"; "WARN"; "ERROR"; "0"; "1"; "2"; "3"]) →
  level_text env ∉ ["DEBUG"; "WARN"; "ERROR"; "0"; "1"; "2"; "3"].
Proof.
  intros Henv. destruct env as [v|]; [|closed_fact].
  specialize (Henv v eq_refl). unfold level_text.
  destruct (String.eqb (toUpperCase v) EmptyString); [closed_fact | exact Henv].
Qed.

Lemma level_text_digit env :
  level_text env ∈ digits → ∃ d, d ∈ digits ∧ env = Some d.
Proof.
  destruct env as [v|]; unfold level_text.
  - destruct (String.eqb (toUpperCase v) EmptyString).
    + intros H. exfalso. revert H. closed_fact.
    + intros Hd. exists v. split; [|done].
      pose proof (toUpperCase_digit v _ Hd eq_refl) as Hv. rewrite Hv. exact Hd.
  - intros H. exfalso. revert H. closed_fact.
Qed.

Section WithEngine.

Variable E : Engine.

Lemma formatMessage_spec lg level message s :
  Console.formatMessage E lg level message s
  = (Ok (formatted lg (now_of E s) level message), tick s).
Proof.
  unfold Console.formatMessage, Console.lift, bind, Date_new, now_of.
  pose proof (clock_range E (reads (Console.platform s))) as Hr.
  unfold TimeClip.
  assert ((Z.abs (clock E (reads (Console.platform s))) <=? maxTime) = true) as ->
    by lia.
  reflexivity.
Qed.

Lemma print_after_format lg level message c args s :
  (let* m := Console.formatMessage E lg level message in Console.print c m args) s
  = (Ok tt, printed c (formatted lg (now_of E s) level message) args s).
Proof. unfold bind. rewrite formatMessage_spec. reflexivity. Qed.

End WithEngine.

(** ** Properties *)

(** [LOG_LEVEL] is read without regard to the case of its letters. *)
Theorem log_level_ignores_case (v name : string) :
  Logger.new (Some (toLowerCase v)) name = Logger.new (Some v) name
  ∧ Logger.new (Some (toUpperCase v)) name = Logger.new (Some v) name.
Proof.
  unfold Logger.new, Logger.getLogLevelFromEnv.
  by rewrite toUpperCase_toLowerCase, toUpperCase_idem.
Qed.

(** With [LOG_LEVEL] unset, empty or naming nothing the enum knows, a logger
    has the threshold INFO: it passes every level but DEBUG. *)
Theorem log_level_default (env : option string) (name : string) :
  (∀ v, env = Some v →
        toUpperCase v ∉ ["DEBUG"; "WARN"; "ERROR"; "0"; "1"; "2"; "3"]) →
  ∀ l, Logger.shouldLog (Logger.new env name) l = true ↔ l ≠ Logger.DEBUG.
Proof.
  intros Henv l. apply level_text_default in Henv.
  assert (Logger.getLogLevelFromEnv env = Some 1) as Hlevel.
  { destruct (getLogLevelFromEnv_cases env) as [[Hd _]|[_ (n & Hn & _ & Hdef)]].
    - exfalso. apply Henv. unfold digits in Hd.
      rewrite !elem_of_cons in Hd. rewrite !elem_of_cons. tauto.
    - rewrite Hn. f_equal. apply Hdef. intros H. apply Henv.
      rewrite !elem_of_cons in H. rewrite !elem_of_cons. tauto. }
  unfold Logger.shouldLog, Logger.new. cbn [Logger.logLevel]. rewrite Hlevel.
  destruct l; cbn [Logger.level_value]; split; intros H; try done; lia.
Qed.

Lemma log_level_default_witness :
  Logger.shouldLog (Logger.new (Some "verbose") "ApiClient") Logger.WARN = true
  ↔ Logger.WARN ≠ Logger.DEBUG.
Proof.
  apply (log_level_default (Some "verbose") "ApiClient").
  intros v [= <-]. closed_fact.
Defined.

(** A logger suppresses errors exactly when [LOG_LEVEL] is one of the digits
    0 to 3, the keys of the reverse mapping of the enum. *)
Theorem errors_suppressed_by_digits_only (env : option string) (name : string) :
  Logger.shouldLog (Logger.new env name) Logger.ERROR = false
  ↔ ∃ d, d ∈ digits ∧ env = Some d.
Proof.
  unfold Logger.shouldLog, Logger.new. cbn [Logger.logLevel Logger.level_value].
  destruct (getLogLevelFromEnv_cases env) as [[Hd ->]|[Hd (n & -> & Hn & _)]].
  - split; [intros _|done]. by apply level_text_digit.
  - split; [intros; lia|]. intros (d & Hd' & ->). exfalso. apply Hd.
    unfold digits in Hd'. rewrite !elem_of_cons, elem_of_nil in Hd'.
    destruct Hd' as [->|[->|[->|[->|[]]]]]; closed_fact.
Qed.

(** [failure] prints its line with [console.error] whatever the level of the
    logger is: the message after the cross mark, under the tag FAIL, stamped
    with the next reading of the clock. *)
Theorem failure_always_prints (E : Engine) (lg : Logger.t) (message : string)
    (s : Console.State) :
  Console.failure E lg message s
  = (Ok tt, printed Console.console_error
              (formatted lg (now_of E s) "FAIL" ("❌ " +:+ message)) [] s).
Proof. unfold Console.failure. apply print_after_format. Qed.

(** With [LOG_LEVEL] set to a digit 0 to 3 every method but [failure] is
    silent: nothing is printed and the clock is not read. *)
Theorem digit_level_silences (E : Engine) (d name : string) (s : Console.State) :
  d ∈ digits →
  let lg := Logger.new (Some d) name in
  ∀ message stack args,
    Console.debug E lg message args s = (Ok tt, s)
    ∧ Console.info E lg message args s = (Ok tt, s)
    ∧ Console.warn E lg message args s = (Ok tt, s)
    ∧ Console.error E lg message stack args s = (Ok tt, s)
    ∧ Console.step E lg message s = (Ok tt, s)
    ∧ Console.action E lg message s = (Ok tt, s)
    ∧ Console.assertion E lg message s = (Ok tt, s).
Proof.
  intros Hd lg message stack args.
  assert (∀ l, Logger.shouldLog lg l = false) as Hquiet.
  { intros l. unfold digits in Hd. rewrite !elem_of_cons, elem_of_nil in Hd.
    by destruct Hd as [->|[->|[->|[->|[]]]]]. }
  unfold Console.debug, Console.info, Console.warn, Console.error, Console.step,
    Console.action, Console.assertion.
  rewrite !Hquiet. by repeat split.
Qed.

(** The console of the samples: nothing printed, nothing drawn or read. *)
Definition blank : Console.State :=
  {| Console.platform := {| draws := 0; reads := 0 |}; Console.lines := [] |}.

Definition noon : Engine := Engines.engine [0] 1709208000000 Engines.utc_zone.

Lemma digit_level_silences_witness :
  Console.debug noon (Logger.new (Some "0") "ApiClient") "ready" [] blank = (Ok tt, blank)
  ∧ Console.error noon (Logger.new (Some "0") "ApiClient") "lost" (Some "at line 1") []
      blank = (Ok tt, blank).
Proof.
  assert ("0" ∈ digits) as Hd by closed_fact.
  destruct (digit_level_silences noon "0" "ApiClient" blank Hd "ready" None [])
    as (Hdebug & _).
  destruct (digit_level_silences noon "0" "ApiClient" blank Hd "lost"
              (Some "at line 1") []) as (_ & _ & _ & Herror & _).
  split; [exact Hdebug | exact Herror].
Defined.

(** No method of the logger throws, and each keeps the lines printed so far
    and adds at most one; when it adds one it has read the clock once. *)
Theorem logger_never_throws (E : Engine) (lg : Logger.t) (message : string)
    (stack : option string) (args : list JsValue) (s : Console.State) :
  Forall (λ m : M Console.State (), ∃ s', m s = (Ok tt, s')
            ∧ (s' = s ∨ ∃ c t a, s' = printed c t a s))
    [Console.debug E lg message args; Console.info E lg message args;
     Console.warn E lg message args; Console.error E lg message stack args;
     Console.step E lg message; Console.action E lg message;
     Console.assertion E lg message; Console.failure E lg message].
Proof.
  unfold Console.debug, Console.info, Console.warn, Console.error, Console.step,
    Console.action, Console.assertion, Console.failure.
  repeat apply Forall_cons_2; [..|apply Forall_nil_2];
    repeat match goal with
    | |- context [if ?b then _ else _] => destruct b
    | |- context [match ?o with Some _ => _ | None => _ end] => destruct o
    end;
    try (eexists; split; [apply print_after_format|]; right; by eexists _, _, _);
    (eexists; split; [reflexivity|]; by left).
Qed.

End LoggerExtras.

(** * More of the test data factory *)

Module TestDataFactoryExtras.

Import TestDataFactory TestDataFactoryProofs.

(** ** Vocabulary of the statements *)

(** [m] throws [e] from every state. *)
Definition throws {A} (m : M State A) (e : Exn) : Prop :=
  ∀ s, ∃ s', m s = (Throw e, s').

(** From [s], [m] returns a value and a state that satisfy [P]. *)
Definition yields {A} (m : M State A) (s : State) (P : A → State → Prop) : Prop :=
  ∃ a s', m s = (Ok a, s') ∧ P a s'.

(** The address [generateUser] builds for the first name [f] at the clock
    reading [now]. *)
Definition address_of (f : string) (now : Z) : string :=
  "test-" +:+ toLowerCase f +:+ "-" +:+ pretty now +:+ "@example.amazonses.com".

(** [l] is what [slice(0, count)] leaves of a rearrangement of [vocabulary]. *)
Definition selection (vocabulary : list string) (count : Z) (l : list string) : Prop :=
  Z.of_nat (length l)
  = (if 0 <=? count then Z.min count (Z.of_nat (length vocabulary))
     else Z.max 0 (Z.of_nat (length vocabulary) + count))
  ∧ NoDup l
  ∧ ∀ x, x ∈ l → x ∈ vocabulary.

(** A person named from the two vocabularies of names. *)
Definition named (m : BandMember) : Prop :=
  ∃ f l, f ∈ firstNames ∧ l ∈ lastNames ∧ name m = f +:+ " " +:+ l.

(** A time of day as [getRandomTime] writes it. *)
Definition evening_time (t : string) : Prop :=
  ∃ h minutes period,
    t = pretty h +:+ ":" +:+ minutes +:+ " " +:+ period
    ∧ minutes ∈ ["00"; "30"]
    ∧ ((period = "PM" ∧ 7 ≤ h ≤ 11) ∨ (period = "AM" ∧ (h = 12 ∨ 1 ≤ h ≤ 6))).

(** The record of an event, field by field. *)
Definition event_record (ev : EventData) : Prop :=
  (∃ t, t ∈ eventTitles ∧ title ev = t +:+ " Concert")
  ∧ description ev ∈ eventDescriptions
  ∧ evening_time (time ev)
  ∧ venue ev ∈ venues
  ∧ (∃ n street, 1 ≤ n ≤ 9999 ∧ street ∈ streetNames
                 ∧ address ev = pretty n +:+ " " +:+ street)
  ∧ city ev ∈ cities
  ∧ state ev ∈ states
  ∧ (∃ n, 10000 ≤ n ≤ 99999 ∧ zipCode ev = pretty n)
  ∧ (∃ g, g ∈ genres ∧ event_genre ev = [g]).

(** The date of an event: the calendar date, universal time, of the instant
    a reading of the clock is moved to. *)
Definition event_date (E : Engine) (ev : EventData) : Prop :=
  ∃ i k, 1 ≤ k ≤ 30 ∧ date ev = iso_date (shifted E (clock E i) k).

(** ** Rules *)

Lemma returns_and {A} (m : M State A) (P Q : A → Prop) :
  returns m P → returns m Q → returns m (λ a, P a ∧ Q a).
Proof.
  intros HP HQ s. destruct (HP s) as (a & s1 & Hrun & Ha).
  destruct (HQ s) as (a' & s1' & Hrun' & Ha').
  exists a, s1. split; [done|]. split; [done|]. congruence.
Qed.

Lemma throws_bind {A B} (m : M State A) (k : A → M State B) P e :
  returns m P → (∀ a, P a → throws (k a) e) → throws (bind m k) e.
Proof.
  intros Hm Hk s. unfold bind.
  destruct (Hm s) as (a & s1 & -> & Ha). exact (Hk a Ha s1).
Qed.

Lemma yields_bind {A B} (m : M State A) (k : A → M State B) s P Q :
  yields m s P → (∀ a s1, P a s1 → yields (k a) s1 Q) → yields (bind m k) s Q.
Proof.
  intros (a & s1 & Hrun & Ha) Hk. unfold yields, bind. rewrite Hrun.
  exact (Hk a s1 Ha).
Qed.

Lemma throws_throw {A B} (e : Exn) (k : A → M State B) : throws (bind (throw e) k) e.
Proof. intros s. by exists s. Qed.

Lemma yields_returns {A} (m : M State A) s (P : A → Prop) :
  returns m P → yields m s (λ a _, P a).
Proof. intros Hm. exact (Hm s). Qed.

Lemma length_append s t :
  String.length (s +:+ t) = (String.length s + String.length t)%nat.
Proof.
  induction s as [|c s IH]; [done|].
  rewrite append_cons. cbn [String.length]. by rewrite IH.
Qed.

Lemma pretty_length_3 a : 100 ≤ a ≤ 999 → String.length (pretty a) = 3%nat.
Proof.
  intros Ha.
  assert (Forall (λ a, String.length (pretty a) = 3%nat) (seqZ 100 900)) as Hall.
  { apply (bool_decide_unpack _). vm_compute. exact I. }
  rewrite Forall_forall in Hall. apply Hall, elem_of_seqZ. lia.
Qed.

Lemma pretty_length_4 a : 1000 ≤ a ≤ 9999 → String.length (pretty a) = 4%nat.
Proof.
  intros Ha.
  assert (Forall (λ a, String.length (pretty a) = 4%nat) (seqZ 1000 9000)) as Hall.
  { apply (bool_decide_unpack _). vm_compute. exact I. }
  rewrite Forall_forall in Hall. apply Hall, elem_of_seqZ. lia.
Qed.

Lemma slice0_length {A} (xs : list A) count :
  Z.of_nat (length (slice0 xs count))
  = if 0 <=? count then Z.min count (Z.of_nat (length xs))
    else Z.max 0 (Z.of_nat (length xs) + count).
Proof.
  unfold slice0. destruct (Z.leb_spec 0 count); rewrite length_take; lia.
Qed.

Lemma slice0_sublist {A} (xs : list A) count : slice0 xs count `sublist_of` xs.
Proof. unfold slice0. destruct (0 <=? count); apply sublist_take. Qed.

Lemma selection_of_shuffle vocabulary sh count :
  NoDup vocabulary → sh ≡ₚ vocabulary → selection vocabulary count (slice0 sh count).
Proof.
  intros Hnd Hsh. split; [|split].
  - rewrite slice0_length. by rewrite (Permutation_length Hsh).
  - eapply sublist_NoDup; [|apply slice0_sublist]. by rewrite Hsh.
  - intros x Hx. rewrite <- Hsh. unfold slice0 in Hx.
    destruct (0 <=? count); apply elem_of_take in Hx as (i & Hi & _);
      by eapply list_elem_of_lookup_2.
Qed.

Lemma take_roles (n : nat) :
  (n ≤ 5)%nat →
  (λ j, if String.eqb (index roles (0 + Z.of_nat j)) EmptyString
        then "Musician" else index roles (0 + Z.of_nat j)) <$> seq 0 n
  = take n roles.
Proof.
  intros Hn. destruct n as [|[|[|[|[|[|n]]]]]]; [reflexivity..|lia].
Qed.

Section WithEngine.

Variable E : Engine.

Lemma pick_yields xs s :
  xs ≠ [] → yields (pick E xs) s (λ x s', x ∈ xs ∧ reads s' = reads s).
Proof.
  intros Hxs. unfold pick, random_below, bind, Math_random, ret.
  eexists _, _. split; [reflexivity|]. split; [|reflexivity].
  apply index_elem_of, floor_scaled_range; [apply random_range|].
  destruct xs; [done | simpl; lia].
Qed.

Lemma Date_now_reading : returns (Date_now E) (λ now, ∃ i, now = clock E i).
Proof. intros s. eexists _, _. split; [reflexivity|]. by eexists. Qed.

Lemma Date_new_reading : returns (Date_new E) (λ tv, ∃ i, tv = Some (clock E i)).
Proof.
  intros s. eexists _, _. split; [reflexivity|].
  exists (reads s). pose proof (clock_range E (reads s)) as Hr. unfold TimeClip.
  by assert ((Z.abs (clock E (reads s)) <=? maxTime) = true) as -> by lia.
Qed.

Lemma generatePhoneNumber_format :
  returns (generatePhoneNumber E)
    (λ ph, ∃ a b c, 100 ≤ a ≤ 999 ∧ 100 ≤ b ≤ 999 ∧ 1000 ≤ c ≤ 9999
                    ∧ ph = pretty a +:+ "-" +:+ pretty b +:+ "-" +:+ pretty c).
Proof.
  unfold generatePhoneNumber.
  eapply returns_bind; [apply (random_below_range E 900); lia|]. intros a Ha.
  eapply returns_bind; [apply (random_below_range E 900); lia|]. intros b Hb.
  eapply returns_bind; [apply (random_below_range E 9000); lia|]. intros c Hc.
  apply returns_ret. simpl in Ha, Hb, Hc.
  exists (a + 100), (b + 100), (c + 1000). repeat split; lia.
Qed.

Lemma getRandomTime_format : returns (getRandomTime E) evening_time.
Proof.
  unfold getRandomTime.
  eapply returns_bind; [apply (random_below_range E 12); lia|]. intros h Hh.
  eapply returns_bind; [apply Math_random_spec|]. intros r _.
  apply returns_ret. simpl in Hh.
  eexists _, _, _. split; [reflexivity|]. split.
  - destruct (half <? r); rewrite !elem_of_cons; auto.
  - destruct (Z.leb_spec (h + 7) 11), (Z.ltb_spec 12 (h + 7)); [lia|left|right|right];
      (split; [done|lia]).
Qed.

Lemma getRandomAddress_format :
  returns (getRandomAddress E)
    (λ a, ∃ n street, 1 ≤ n ≤ 9999 ∧ street ∈ streetNames
                      ∧ a = pretty n +:+ " " +:+ street).
Proof.
  unfold getRandomAddress.
  eapply returns_bind; [apply (random_below_range E 9999); lia|]. intros n Hn.
  eapply returns_bind; [apply (pick_spec E streetNames); done|]. intros x Hx.
  apply returns_ret. simpl in Hn. exists (n + 1), x. repeat split; [lia..|done].
Qed.

Lemma generateZipCode_format :
  returns (generateZipCode E) (λ z, ∃ n, 10000 ≤ n ≤ 99999 ∧ z = pretty n).
Proof.
  unfold generateZipCode.
  eapply returns_bind; [apply Math_random_spec|]. intros r Hr.
  apply returns_ret. eexists. split; [|reflexivity].
  unfold floor. rewrite Z.div_add by (unfold unit; lia).
  pose proof (floor_scaled_range r 90000 Hr) as Hf. unfold floor in Hf. lia.
Qed.

Lemma selection_genres count :
  returns (getRandomGenres E count) (selection genres count).
Proof.
  unfold getRandomGenres.
  eapply returns_bind; [apply shuffled_spec|].
  intros sh Hsh. apply returns_ret. apply selection_of_shuffle; [|done].
  apply (bool_decide_unpack _). by vm_compute.
Qed.

Lemma selection_instruments count :
  returns (getRandomInstruments E count) (selection instrumentNames count).
Proof.
  unfold getRandomInstruments.
  eapply returns_bind; [apply shuffled_spec|].
  intros sh Hsh. apply returns_ret. apply selection_of_shuffle; [|done].
  apply (bool_decide_unpack _). by vm_compute.
Qed.

(** The loop appends one member per iteration, the [j]-th of them with the
    role at position [i + j] or the fallback, and a name of the vocabularies. *)
Lemma bandMembers_loop_roles instrs rem : ∀ i acc,
  returns (bandMembers_loop E rem i instrs acc)
    (λ ms, ∃ new, ms = acc ++ new
                  ∧ role <$> new
                    = (λ j, if String.eqb (index roles (i + Z.of_nat j)) EmptyString
                            then "Musician" else index roles (i + Z.of_nat j))
                      <$> seq 0 rem
                  ∧ Forall named new).
Proof.
  induction rem as [|rem IH]; intros i acc; simpl.
  - apply returns_ret. exists []. by rewrite app_nil_r.
  - eapply returns_bind; [apply (pick_spec E firstNames); done|]. intros f Hf.
    eapply returns_bind; [apply (pick_spec E lastNames); done|]. intros l Hl.
    eapply returns_weaken; [apply IH|].
    intros ms (new & -> & Hnew & Hnames). eexists (_ :: new).
    split; [by rewrite <- app_assoc|]. split.
    + change (seq 0 (S rem)) with (0%nat :: seq 1 rem).
      rewrite !fmap_cons, Hnew, Z.add_0_r. f_equal.
      rewrite <- fmap_S_seq, <- list_fmap_compose.
      apply list_fmap_ext. intros _ j _. simpl.
      by replace (i + 1 + Z.of_nat j) with (i + Z.pos (Pos.of_succ_nat j)) by lia.
    + apply Forall_cons_2; [|done]. by exists f, l.
Qed.

Lemma generateBandMembers_roles :
  returns (generateBandMembers E)
    (λ ms, role <$> ms = take (length ms) roles ∧ Forall named ms).
Proof.
  unfold generateBandMembers.
  eapply returns_bind; [apply (random_below_range E 4); lia|]. intros n Hn.
  simpl in Hn.
  eapply returns_bind; [apply getRandomInstruments_spec; lia|]. intros instrs _.
  eapply returns_weaken; [apply bandMembers_loop_roles|].
  intros ms (new & -> & Hnew & Hnames). simpl. split; [|done].
  assert (length new = Z.to_nat (n + 2)) as Hlen.
  { by rewrite <- (length_fmap role), Hnew, length_fmap, length_seq. }
  rewrite Hnew, Hlen. apply take_roles. lia.
Qed.

(** Every user record carries names of the vocabularies, the fixed password
    and an address built from the first name and a reading of the clock. *)
Lemma generateUser_identity_spec ty s :
  yields (generateUser E ty) s
    (λ u _, firstName u ∈ firstNames ∧ lastName u ∈ lastNames
            ∧ password u = "TestPassword123!"
            ∧ email u = address_of (firstName u) (clock E (reads s))
            ∧ ∃ a b c, 100 ≤ a ≤ 999 ∧ 100 ≤ b ≤ 999 ∧ 1000 ≤ c ≤ 9999
                ∧ phone u = pretty a +:+ "-" +:+ pretty b +:+ "-" +:+ pretty c).
Proof.
  unfold generateUser.
  eapply yields_bind; [apply (pick_yields firstNames); done|]. intros f s1 [Hf Hs1].
  eapply yields_bind; [apply (pick_yields lastNames); done|]. intros l s2 [Hl Hs2].
  eapply (yields_bind _ _ _ (λ now _, now = clock E (reads s2))).
  { eexists _, _. split; reflexivity. }
  intros now s3 ->. rewrite Hs2, Hs1.
  apply yields_returns.
  eapply returns_bind; [apply generatePhoneNumber_format|]. intros ph Hph.
  destruct ty.
  - apply returns_ret. by repeat split.
  - eapply returns_bind; [apply (getRandomGenres_spec E 2); lia|]. intros g _.
    eapply returns_bind; [apply generateBandMembers_spec|]. intros ms _.
    apply returns_ret. by repeat split.
  - eapply returns_bind; [apply (getRandomGenres_spec E 1); lia|]. intros g _.
    eapply returns_bind; [apply (getRandomInstruments_spec E 2); lia|]. intros i _.
    apply returns_ret. by repeat split.
Qed.

Lemma generateUsers_loop_Forall (P : UserData → Prop) rem :
  (∀ ty, returns (generateUser E ty) P) →
  ∀ i acc,
    returns (generateUsers_loop E rem i acc)
      (λ us, ∃ new, us = acc ++ new ∧ length new = rem ∧ Forall P new).
Proof.
  intros HP. induction rem as [|rem IH]; intros i acc; cbn [generateUsers_loop].
  - apply returns_ret. exists []. by rewrite app_nil_r.
  - eapply returns_bind; [apply HP|]. intros u Hu.
    eapply returns_weaken; [apply IH|].
    intros us (new & -> & Hlen & Hall). exists (u :: new).
    split; [by rewrite <- app_assoc|]. split; [simpl; lia|].
    by apply Forall_cons_2.
Qed.

Lemma generateUser_address ty :
  returns (generateUser E ty)
    (λ u, ∃ f i, f ∈ firstNames ∧ email u = address_of f (clock E i)).
Proof.
  unfold generateUser.
  eapply returns_bind; [apply (pick_spec E firstNames); done|]. intros f Hf.
  eapply returns_bind; [apply (pick_spec E lastNames); done|]. intros l _.
  eapply returns_bind; [apply Date_now_reading|]. intros now [i ->].
  eapply returns_bind; [apply generatePhoneNumber_spec|]. intros ph _.
  destruct ty.
  - apply returns_ret. by exists f, i.
  - eapply returns_bind; [apply (getRandomGenres_spec E 2); lia|]. intros g _.
    eapply returns_bind; [apply generateBandMembers_spec|]. intros ms _.
    apply returns_ret. by exists f, i.
  - eapply returns_bind; [apply (getRandomGenres_spec E 1); lia|]. intros g _.
    eapply returns_bind; [apply (getRandomInstruments_spec E 2); lia|]. intros ins _.
    apply returns_ret. by exists f, i.
Qed.

Lemma single_genre gs : selection genres 1 gs → ∃ g, g ∈ genres ∧ gs = [g].
Proof.
  intros (Hlen & _ & Hin). destruct gs as [|g [|g' gs]]; simpl in Hlen; try lia.
  exists g. split; [|done]. apply Hin. by left.
Qed.

Lemma generateEvent_record :
  ensures (generateEvent E) (λ ev, event_record ev ∧ event_date E ev).
Proof.
  unfold generateEvent.
  eapply ensures_bind; [apply returns_ensures, (selection_genres 1)|].
  intros gs Hgs. apply single_genre in Hgs.
  eapply ensures_bind; [apply returns_ensures, Date_new_reading|].
  intros tv (i & ->).
  eapply ensures_bind; [apply returns_ensures, days_ahead_spec|].
  intros k Hk. cbn [getDate]. rewrite setDate_shifts.
  eapply ensures_bind; [apply returns_ensures, (pick_spec E eventTitles); done|].
  intros t Ht.
  eapply ensures_bind; [apply returns_ensures, (pick_spec E eventDescriptions); done|].
  intros descr Hdescr.
  eapply ensures_bind; [apply toISOString_spec|].
  intros iso (u & Hu & ->).
  eapply ensures_bind; [apply returns_ensures, getRandomTime_format|]. intros tm Htm.
  eapply ensures_bind; [apply returns_ensures, (pick_spec E venues); done|]. intros v Hv.
  eapply ensures_bind; [apply returns_ensures, getRandomAddress_format|]. intros a Ha.
  eapply ensures_bind; [apply returns_ensures, (pick_spec E cities); done|]. intros c Hc.
  eapply ensures_bind; [apply returns_ensures, (pick_spec E states); done|]. intros st Hst.
  eapply ensures_bind; [apply returns_ensures, generateZipCode_format|]. intros z Hz.
  eapply ensures_bind; [apply returns_ensures, (random_below_range E 100); lia|].
  intros p _.
  eapply ensures_bind; [apply returns_ensures, (random_below_range E 500); lia|].
  intros cap _.
  apply ensures_ret. split.
  - unfold event_record. cbn. split; [by exists t|]. by repeat split.
  - exists i, k. split; [exact Hk|]. cbn [date].
    unfold TimeClip in Hu. destruct (Z.abs _ <=? maxTime); [|discriminate].
    injection Hu as <-. unfold iso_date. reflexivity.
Qed.

Lemma shifted_bounds now k :
  (∀ t isUTC, Z.abs (LocalTZA E t isUTC) ≤ msPerDay) →
  Z.abs now ≤ maxTime - 32 * msPerDay → 1 ≤ k ≤ 30 →
  TimeClip (shifted E now k) = Some (shifted E now k).
Proof.
  intros Hzone Hnow Hk. unfold TimeClip, shifted, UTC, LocalTime.
  pose proof (Hzone now true) as H1.
  pose proof (Hzone (now + LocalTZA E now true + k * msPerDay) false) as H2.
  assert ((Z.abs (now + LocalTZA E now true + k * msPerDay
                  - LocalTZA E (now + LocalTZA E now true + k * msPerDay) false)
           <=? maxTime) = true) as ->; [|done].
  unfold msPerDay, maxTime in *. lia.
Qed.

Lemma generateEvent_in_range :
  (∀ t isUTC, Z.abs (LocalTZA E t isUTC) ≤ msPerDay) →
  (∀ i, Z.abs (clock E i) ≤ maxTime - 32 * msPerDay) →
  returns (generateEvent E) (λ _, True).
Proof.
  intros Hzone Hclock. unfold generateEvent.
  eapply returns_bind; [apply (selection_genres 1)|]. intros gs _.
  eapply returns_bind; [apply Date_new_reading|]. intros tv (i & ->).
  eapply returns_bind; [apply days_ahead_spec|]. intros k Hk.
  cbn [getDate]. rewrite setDate_shifts, shifted_bounds by auto.
  eapply returns_bind; [apply (pick_spec E eventTitles); done|]. intros t _.
  eapply returns_bind; [apply (pick_spec E eventDescriptions); done|]. intros descr _.
  eapply (returns_bind _ _ (λ _, True)); [by apply returns_ret|]. intros iso _.
  eapply returns_bind; [apply getRandomTime_spec|]. intros tm _.
  eapply returns_bind; [apply (pick_spec E venues); done|]. intros v _.
  eapply returns_bind; [apply getRandomAddress_spec|]. intros a _.
  eapply returns_bind; [apply (pick_spec E cities); done|]. intros c _.
  eapply returns_bind; [apply (pick_spec E states); done|]. intros st _.
  eapply returns_bind; [apply generateZipCode_spec|]. intros z _.
  eapply returns_bind; [apply (random_below_range E 100); lia|]. intros p _.
  eapply returns_bind; [apply (random_below_range E 500); lia|]. intros cap _.
  by apply returns_ret.
Qed.

Lemma shifted_out_of_range offset now k :
  (∀ t isUTC, LocalTZA E t isUTC = offset) →
  maxTime - msPerDay < now → 1 ≤ k ≤ 30 →
  TimeClip (shifted E now k) = None.
Proof.
  intros Hzone Hnow Hk. unfold TimeClip, shifted, UTC, LocalTime. rewrite !Hzone.
  assert ((Z.abs (now + offset + k * msPerDay - offset) <=? maxTime) = false) as ->;
    [|done].
  unfold msPerDay, maxTime in *. lia.
Qed.

Lemma generateEvent_out_of_range offset :
  (∀ t isUTC, LocalTZA E t isUTC = offset) →
  (∀ i, maxTime - msPerDay < clock E i) →
  throws (generateEvent E) (RangeError "Invalid time value").
Proof.
  intros Hzone Hclock. unfold generateEvent.
  eapply throws_bind; [apply (selection_genres 1)|]. intros gs _.
  eapply throws_bind; [apply Date_new_reading|]. intros tv (i & ->).
  eapply throws_bind; [apply days_ahead_spec|]. intros k Hk.
  cbn [getDate]. rewrite setDate_shifts, (shifted_out_of_range offset) by auto.
  eapply throws_bind; [apply (pick_spec E eventTitles); done|]. intros t _.
  eapply throws_bind; [apply (pick_spec E eventDescriptions); done|]. intros descr _.
  apply throws_throw.
Qed.

End WithEngine.

(** ** Sample platforms *)

(** The last instant a date can hold, universal time. *)
Definition last_instant : Engine := Engines.engine [0] maxTime Engines.utc_zone.

(** The record [generateEvent] returns at noon of 2024-02-29, universal
    time. *)
Definition spring_concert : EventData :=
  {| title := "Summer Music Festival Concert";
     description := "An evening filled with amazing performances and great vibes.";
     date := "2024-03-11";
     time := "1:30 AM";
     venue := "Performance Center";
     address := "3335 Main St";
     city := "Atlanta";
     state := "WA";
     zipCode := "10000";
     ticketPrice := 119;
     capacity := 216;
     event_genre := ["Pop"] |}.

Lemma generateEvent_leap_day :
  generateEvent leap_day_utc fresh = (Ok spring_concert, {| draws := 36; reads := 1 |}).
Proof. vm_compute. reflexivity. Qed.

(** ** Properties *)

(** Every user record, of whatever type, carries a first and a last name of
    the vocabularies, the fixed password, the address built from the first
    name in lower case and the clock reading of the call, and a phone number
    of twelve characters: three groups of three, three and four digits. *)
Theorem generateUser_identity (E : Engine) (ty : UserType) (s : State) :
  ∃ u s', generateUser E ty s = (Ok u, s')
    ∧ firstName u ∈ firstNames
    ∧ lastName u ∈ lastNames
    ∧ password u = "TestPassword123!"
    ∧ email u = address_of (firstName u) (clock E (reads s))
    ∧ (∃ a b c, 100 ≤ a ≤ 999 ∧ 100 ≤ b ≤ 999 ∧ 1000 ≤ c ≤ 9999
                ∧ phone u = pretty a +:+ "-" +:+ pretty b +:+ "-" +:+ pretty c)
    ∧ String.length (phone u) = 12%nat.
Proof.
  destruct (generateUser_identity_spec E ty s)
    as (u & s' & Hrun & Hf & Hl & Hp & He & a & b & c & Ha & Hb & Hc & Hph).
  exists u, s'. split; [done|]. split; [done|]. split; [done|]. split; [done|].
  split; [done|]. split; [by exists a, b, c|].
  rewrite Hph, !length_append, !pretty_length_3, pretty_length_4 by done.
  reflexivity.
Qed.

(** The addresses of users are told apart by first name and clock reading
    only: when the clock does not move during a call of [generateUsers] for
    more users than there are first names, two of them share an address. *)
Theorem generateUsers_addresses_collide (E : Engine) (now n : Z) (s : State) :
  (∀ i, clock E i = now) →
  16 < n →
  ∃ us s', generateUsers E n s = (Ok us, s') ∧ ¬ NoDup (email <$> us).
Proof.
  intros Hclock Hn. unfold generateUsers.
  destruct (generateUsers_loop_Forall E _ (Z.to_nat n) (generateUser_address E) 0 [] s)
    as (us & s' & Hrun & new & -> & Hlen & Hall).
  exists new, s'. split; [exact Hrun|]. intros Hnd.
  assert (email <$> new ⊆+ (λ f, address_of f now) <$> firstNames) as Hsub.
  { apply NoDup_submseteq; [done|]. intros x Hx.
    apply list_elem_of_fmap in Hx as (u & -> & Hu).
    rewrite Forall_forall in Hall. destruct (Hall u Hu) as (f & i & Hf & He).
    rewrite He, Hclock. by apply (list_elem_of_fmap_2 (λ f, address_of f now)). }
  apply submseteq_length in Hsub. rewrite !length_fmap, Hlen in Hsub.
  simpl in Hsub. lia.
Qed.

Lemma generateUsers_addresses_collide_witness :
  ∃ us s', generateUsers leap_day_utc 17 fresh = (Ok us, s') ∧ ¬ NoDup (email <$> us).
Proof.
  apply (generateUsers_addresses_collide leap_day_utc 1709208000000 17 fresh).
  - intros i. reflexivity.
  - lia.
Defined.

(** Whatever [generateEvent] returns: a title of the vocabulary followed by
    " Concert", a description, venue, city and state of their vocabularies,
    one genre, a five-digit zip code from 10000 on, a street number from 1 to
    9999 before a street name, and a time on the hour or the half hour, from
    7 to 11 PM or from 12 to 6 AM. *)
Theorem generateEvent_fields (E : Engine) (s : State) (ev : EventData) (s' : State) :
  generateEvent E s = (Ok ev, s') → event_record ev.
Proof. intros Hrun. by destruct (generateEvent_record E s ev s' Hrun). Qed.

Lemma generateEvent_fields_witness : event_record dated_today.
Proof.
  exact (generateEvent_fields last_winter_night fresh dated_today _
           generateEvent_last_winter_night).
Defined.

(** [generateEvent] returns whenever the clock is 32 days or more away from
    both ends of the range of time values and the offsets of the time zone
    are within a day. *)
Theorem generateEvent_returns (E : Engine) (s : State) :
  (∀ t isUTC, Z.abs (LocalTZA E t isUTC) ≤ msPerDay) →
  (∀ i, Z.abs (clock E i) ≤ maxTime - 32 * msPerDay) →
  ∃ ev s', generateEvent E s = (Ok ev, s').
Proof.
  intros Hzone Hclock.
  destruct (generateEvent_in_range E Hzone Hclock s) as (ev & s' & Hrun & _).
  by exists ev, s'.
Qed.

Lemma generateEvent_returns_witness :
  ∃ ev s', generateEvent last_winter_night fresh = (Ok ev, s').
Proof.
  apply (generateEvent_returns last_winter_night fresh).
  - intros t isUTC. unfold last_winter_night, Engines.engine, Engines.cet_2024.
    cbn [LocalTZA]. unfold msPerDay.
    destruct isUTC; [destruct (t <? 1711846800000)
                    | destruct (t <? 1711846800000 + 7200000)]; lia.
  - intros i. vm_compute. discriminate.
Defined.

(** At the end of the range of time values [generateEvent] throws: with the
    clock less than a day before the last instant, in a zone of fixed offset,
    the date it moves is invalid and [toISOString] raises the RangeError. *)
Theorem generateEvent_throws_at_range_end (E : Engine) (offset : Z) (s : State) :
  (∀ t isUTC, LocalTZA E t isUTC = offset) →
  (∀ i, maxTime - msPerDay < clock E i) →
  ∃ s', generateEvent E s = (Throw (RangeError "Invalid time value"), s').
Proof. intros Hzone Hclock. exact (generateEvent_out_of_range E offset Hzone Hclock s). Qed.

Lemma generateEvent_throws_at_range_end_witness :
  ∃ s', generateEvent last_instant fresh = (Throw (RangeError "Invalid time value"), s').
Proof.
  apply (generateEvent_throws_at_range_end last_instant 0 fresh).
  - intros t isUTC. reflexivity.
  - intros i. vm_compute. reflexivity.
Defined.

(** In a time zone of fixed offset the date of an event is the calendar
    date, universal time, 1 to 30 days after the day of a clock reading. *)
Theorem generateEvent_date_fixed_offset (E : Engine) (offset : Z) (s : State)
    (ev : EventData) (s' : State) :
  (∀ t isUTC, LocalTZA E t isUTC = offset) →
  generateEvent E s = (Ok ev, s') →
  ∃ i k, 1 ≤ k ≤ 30 ∧ date ev = date_text (Day (clock E i) + k).
Proof.
  intros Hzone Hrun.
  destruct (generateEvent_record E s ev s' Hrun) as (_ & i & k & Hk & Hdate).
  exists i, k. split; [done|]. rewrite Hdate, iso_date_day. f_equal.
  apply shifted_stable_offset. by rewrite !Hzone.
Qed.

Lemma generateEvent_date_fixed_offset_witness :
  ∃ i k, 1 ≤ k ≤ 30
         ∧ date spring_concert = date_text (Day (clock leap_day_utc i) + k).
Proof.
  apply (generateEvent_date_fixed_offset leap_day_utc 0 fresh spring_concert
           {| draws := 36; reads := 1 |}).
  - intros t isUTC. reflexivity.
  - exact generateEvent_leap_day.
Defined.

(** [getRandomGenres] and [getRandomInstruments] for any count: the result
    holds distinct entries of the vocabulary of 14; [count] of them when
    [count] is 0 to 14, all 14 above that, and for a negative count the 14
    less [-count], none from -14 down. *)
Theorem random_selection (E : Engine) (count : Z) (s : State) :
  (∃ l s', getRandomGenres E count s = (Ok l, s') ∧ selection genres count l)
  ∧ (∃ l s', getRandomInstruments E count s = (Ok l, s')
             ∧ selection instrumentNames count l).
Proof. split; [apply selection_genres | apply selection_instruments]. Qed.

(** The roles of a band are the first roles of the list, in its order, one
    per member: the fallback 'Musician' is never used.  Every member is named
    by a first and a last name of the vocabularies. *)
Theorem band_roles_by_position (E : Engine) (s : State) :
  ∃ ms s', generateBandMembers E s = (Ok ms, s')
    ∧ role <$> ms = take (length ms) roles
    ∧ ∀ m, m ∈ ms → named m ∧ role m ≠ "Musician".
Proof.
  destruct (generateBandMembers_roles E s) as (ms & s' & Hrun & Hroles & Hnames).
  exists ms, s'. split; [done|]. split; [done|].
  intros m Hm. rewrite Forall_forall in Hnames. split; [by apply Hnames|].
  assert (role m ∈ roles) as Hr.
  { apply (list_elem_of_fmap_2 role) in Hm. rewrite Hroles in Hm.
    apply elem_of_take in Hm as (i & Hi & _). by eapply list_elem_of_lookup_2. }
  intros Heq. rewrite Heq in Hr. revert Hr. apply (bool_decide_unpack _). by vm_compute.
Qed.

End TestDataFactoryExtras.
